(** * A shallow embedding of the universal proxy (index.js)

    The proxy is an Express application with three http-proxy hooks
    (error, proxyRes, proxyReq), a /proxy route and an upgrade listener.
    Every handler of index.js is rendered below as a function over explicit
    request and response records.  JavaScript objects used as dictionaries
    (header collections) are finite maps with string keys.

    Strings are sequences of code units below 256: Node decodes header
    names and values as Latin-1, and everything the URL class returns is
    ASCII.

    The platform pieces that index.js calls but does not define are kept
    apart from the handlers:
    - the URL class is an interface (class [UrlApi]); the handlers are
      written against it, and [Whatwg] further down is an executable
      reference implementation of a fragment of the URL Standard;
    - string methods, the three regular expressions of the cookie rewrite
      and encodeURIComponent are written out as functions (module [Js]);
    - Node's header ingestion, ServerResponse and the http-proxy pipeline
      are small models named after the library functions they stand for. *)

From Stdlib Require Import Ascii String ZArith NArith Lia Bool List.
From stdpp Require Import base option list gmap strings.

Local Open Scope Z_scope.

(** ** JavaScript strings *)

Module Js.

Definition code (c : ascii) : N := N_of_ascii c.

Definition in_range (lo hi : N) (c : ascii) : bool :=
  ((lo <=? code c) && (code c <=? hi))%N.

Definition is_upper : ascii -> bool := in_range 65 90.
Definition is_lower : ascii -> bool := in_range 97 122.
Definition is_alpha (c : ascii) : bool := is_upper c || is_lower c.
Definition is_digit : ascii -> bool := in_range 48 57.
Definition is_alnum (c : ascii) : bool := is_alpha c || is_digit c.

(** ASCII lower-casing, as Node applies it to header names and the URL
    parser to schemes and hosts. *)
Definition lower (c : ascii) : ascii :=
  if is_upper c then ascii_of_N (code c + 32) else c.

Fixpoint toLowerCase (s : string) : string :=
  match s with
  | EmptyString => EmptyString
  | String c s' => String (lower c) (toLowerCase s')
  end.

(** The class \s of a regular expression, restricted to code units below
    256: tab, LF, VT, FF, CR, space and U+00A0. *)
Definition is_space (c : ascii) : bool :=
  in_range 9 13 c || (code c =? 32)%N || (code c =? 160)%N.

(** A JavaScript string is falsy exactly when it is empty. *)
Definition truthy (s : string) : bool :=
  match s with EmptyString => false | _ => true end.

(** [x || y] on values that are a string or undefined. *)
Definition or_else (x : option string) (y : string) : string :=
  match x with
  | Some s => if truthy s then s else y
  | None => y
  end.

(** A template literal prints undefined as the word itself. *)
Definition template (x : option string) : string :=
  match x with Some s => s | None => "undefined" end.

Fixpoint startsWith (s p : string) : bool :=
  match p, s with
  | EmptyString, _ => true
  | String a p', String b s' => if ascii_dec a b then startsWith s' p' else false
  | String _ _, EmptyString => false
  end.

(** [s.endsWith(x)]: some suffix of [s] is [x]. *)
Fixpoint endsWith (s x : string) : bool :=
  if String.eqb s x then true
  else match s with
       | EmptyString => false
       | String _ s' => endsWith s' x
       end.

(** [s.split(",")[0]]: the part before the first comma. *)
Fixpoint before_comma (s : string) : string :=
  match s with
  | EmptyString => EmptyString
  | String c s' => if ascii_dec c ","%char then EmptyString
                   else String c (before_comma s')
  end.

(** Case-insensitive match of the literal [lit] (given in lower case) at
    the head of [s]; the rest of [s] on success. *)
Fixpoint eat_ci (lit s : string) : option string :=
  match lit, s with
  | EmptyString, _ => Some s
  | String a lit', String b s' =>
      if ascii_dec a (lower b) then eat_ci lit' s' else None
  | String _ _, EmptyString => None
  end.

Fixpoint skip_space (s : string) : string :=
  match s with
  | String c s' => if is_space c then skip_space s' else s
  | EmptyString => EmptyString
  end.

(** The longest prefix without a semicolon, and what follows it. *)
Fixpoint span_no_semi (s : string) : string * string :=
  match s with
  | EmptyString => (EmptyString, EmptyString)
  | String c s' =>
      if ascii_dec c ";"%char then (EmptyString, s)
      else let '(a, b) := span_no_semi s' in (String c a, b)
  end.

(** [/;\s*<lit>/i] anchored at the head of [s]: the text after the match.
    The quantifier is greedy; since no literal used here starts with a
    space, backtracking never finds a match the greedy run misses. *)
Definition attr_here (lit s : string) : option string :=
  match s with
  | String c s' => if ascii_dec c ";"%char then eat_ci lit (skip_space s') else None
  | EmptyString => None
  end.

(** [/;\s*<lit>/i.test(s)]. *)
Fixpoint attr_test (lit s : string) : bool :=
  match attr_here lit s with
  | Some _ => true
  | None => match s with
            | EmptyString => false
            | String _ s' => attr_test lit s'
            end
  end.

(** [/;\s*Domain=[^;]*/i.exec(s)]: the text before the leftmost match,
    the match, and the text after it. *)
Fixpoint domain_exec (s : string) : option (string * string * string) :=
  match attr_here "domain=" s with
  | Some r =>
      let after := snd (span_no_semi r) in
      Some (EmptyString, substring 0 (String.length s - String.length after) s, after)
  | None => match s with
            | EmptyString => None
            | String c s' =>
                match domain_exec s' with
                | Some (b, m, a) => Some (String c b, m, a)
                | None => None
                end
            end
  end.

(** GetSubstitution for a pattern without capture groups: [$$] is a
    dollar sign, [$&] the match, [$`] the text before it and [$'] the
    text after it; every other character stands for itself. *)
Fixpoint substitution (matched before after tmpl : string) : string :=
  match tmpl with
  | EmptyString => EmptyString
  | String c t1 =>
      if ascii_dec c "$"%char then
        match t1 with
        | String d t2 =>
            if ascii_dec d "$"%char then String "$" (substitution matched before after t2)
            else if ascii_dec d "&"%char then matched +:+ substitution matched before after t2
            else if ascii_dec d "`"%char then before +:+ substitution matched before after t2
            else if ascii_dec d "'"%char then after +:+ substitution matched before after t2
            else String c (substitution matched before after t1)
        | EmptyString => String c EmptyString
        end
      else String c (substitution matched before after t1)
  end.

(** [s.replace(/;\s*Domain=[^;]*/i, tmpl)]: the pattern has no g flag, so
    only the leftmost match is replaced. *)
Definition replace_domain (s tmpl : string) : string :=
  match domain_exec s with
  | None => s
  | Some (b, m, a) => b +:+ substitution m b a tmpl +:+ a
  end.

(** *** encodeURIComponent and decodeURIComponent *)

Definition hex_digit (n : N) : ascii :=
  if (n <? 10)%N then ascii_of_N (48 + n) else ascii_of_N (55 + n).

Definition hex_value (c : ascii) : option N :=
  if is_digit c then Some (code c - 48)%N
  else if in_range 65 70 c then Some (code c - 55)%N
  else if in_range 97 102 c then Some (code c - 87)%N
  else None.

Definition pct (b : N) (rest : string) : string :=
  String "%" (String (hex_digit (b / 16)) (String (hex_digit (b mod 16)) rest)).

(** A-Z a-z 0-9 - _ . ! ~ * ' ( ) *)
Definition uri_unreserved (c : ascii) : bool :=
  is_alnum c ||
  existsb (fun d => if ascii_dec c d then true else false)
    ["-"; "_"; "."; "!"; "~"; "*"; "'"; "("; ")"]%char.

(** Every other code unit is written as the percent-encoded bytes of its
    UTF-8 form: one byte below 128, two bytes from 128 to 255. *)
Fixpoint encodeURIComponent (s : string) : string :=
  match s with
  | EmptyString => EmptyString
  | String c s' =>
      let r := encodeURIComponent s' in
      if uri_unreserved c then String c r
      else if (code c <? 128)%N then pct (code c) r
      else pct (192 + code c / 64) (pct (128 + code c mod 64) r)
  end.

(** decodeURIComponent on inputs whose code points stay below 256; a
    malformed escape, or one that decodes outside that range, gives
    [None] (the former is a URIError). *)
Fixpoint decodeURIComponent (s : string) : option string :=
  match s with
  | EmptyString => Some EmptyString
  | String c s' =>
      if ascii_dec c "%"%char then
        match s' with
        | String h (String l r) =>
            match hex_value h, hex_value l with
            | Some a, Some b =>
                let n := (16 * a + b)%N in
                if (n <? 128)%N then String (ascii_of_N n) <$> decodeURIComponent r
                else if ((194 <=? n) && (n <=? 195))%N then
                  match r with
                  | String p2 (String h2 (String l2 r2)) =>
                      if ascii_dec p2 "%"%char then
                        match hex_value h2, hex_value l2 with
                        | Some a2, Some b2 =>
                            let n2 := (16 * a2 + b2)%N in
                            if ((128 <=? n2) && (n2 <=? 191))%N then
                              String (ascii_of_N ((n - 192) * 64 + (n2 - 128)))
                                <$> decodeURIComponent r2
                            else None
                        | _, _ => None
                        end
                      else None
                  | _ => None
                  end
                else None
            | _, _ => None
            end
        | _ => None
        end
      else String c <$> decodeURIComponent s'
  end.

End Js.


(** ** Values shared by the handlers *)

(** A call either returns or throws; an exception that leaves a handler is
    not caught anywhere in index.js. *)
Inductive completion (A : Type) : Type :=
| Return (a : A)
| Throw.
Arguments Return {A} a.
Arguments Throw {A}.

(** A header of an IncomingMessage is a string, or an array of strings for
    set-cookie. *)
Inductive header_value : Type :=
| HStr (s : string)
| HArr (l : list string).

Definition truthy_value (v : header_value) : bool :=
  match v with
  | HStr s => Js.truthy s
  | HArr _ => true
  end.

(** String(v): an array prints its elements joined by commas. *)
Definition to_string (v : header_value) : string :=
  match v with
  | HStr s => s
  | HArr l => String.concat "," l
  end.

(** The value handed to console.error or thrown by the platform. *)
Record JsError := { message : option string; detail : string }.

(** ** The URL class, as index.js uses it *)

Class UrlApi := {
  URL : Type;
  (** [new URL(input, base)]; [None] when the constructor throws. *)
  URL_new : string -> option string -> option URL;
  href : URL -> string;
  origin : URL -> string;
  hostname : URL -> string;
  pathname : URL -> string;
  search : URL -> string;
  hash : URL -> string;
  (** [u.searchParams.get(name)]; [None] for null. *)
  searchParams_get : URL -> string -> option string;
}.

(** Options of [res.cookie]. *)
Record CookieOptions := {
  httpOnly : bool;
  sameSite : string;
  maxAge : Z;
}.

(** Express: the Set-Cookie text [res.cookie] produces for a name, a value
    and options (the cookie package's serialize; it depends on the clock
    through Expires). *)
Class ExpressApi := {
  cookie_serialize : string -> string -> CookieOptions -> string;
}.

(** ** Requests and responses *)

Module Req.
(** The inbound client request: [url], [headers] (lower-case keys) and
    Express's [protocol], plus the two fields index.js stashes on it. *)
Record t := {
  url : string;
  headers : gmap string string;
  protocol : string;
  _targetOrigin : option string;
  _proto : option string;
}.
End Req.

Module ProxyRes.
(** The upstream response as http-proxy hands it to the proxyRes hook. *)
Record t := {
  statusCode : Z;
  headers : gmap string header_value;
  body : string;
}.
End ProxyRes.

Module Res.
(** The ServerResponse towards the client.  [headers] is keyed by the
    lower-cased name, as getHeader is. *)
Record t := {
  statusCode : Z;
  headers : gmap string header_value;
  headersSent : bool;
  body : string;
  finished : bool;
}.

(** [res.status(code)] *)
Definition status (code : Z) (res : t) : t :=
  {| statusCode := code; headers := headers res;
     headersSent := headersSent res; body := body res;
     finished := finished res |}.

(** [res.writeHead(code, hdrs)]: the given headers are merged over the
    ones set before, and the head is flushed. *)
Definition writeHead (code : Z) (hdrs : gmap string header_value) (res : t) : t :=
  {| statusCode := code; headers := hdrs ∪ headers res;
     headersSent := true; body := body res; finished := finished res |}.

(** [res.end(chunk)]: the chunk is written after whatever was written
    before, and the response is finished; a finished response stays as
    it is. *)
Definition end_ (chunk : string) (res : t) : t :=
  if finished res then res
  else {| statusCode := statusCode res; headers := headers res;
          headersSent := true; body := body res +:+ chunk;
          finished := true |}.

Definition setHeader (name : string) (v : header_value) (res : t) : t :=
  {| statusCode := statusCode res; headers := <[name := v]> (headers res);
     headersSent := headersSent res; body := body res;
     finished := finished res |}.

(** [res.send(text)] of Express: a text without a Content-Type is sent
    as text/html (Content-Length and ETag, which Express also sets, are
    left out). *)
Definition send (text : string) (res : t) : t :=
  let res1 :=
    match headers res !! "content-type" with
    | Some _ => res
    | None => setHeader "content-type" (HStr "text/html; charset=utf-8") res
    end in
  end_ text res1.

(** [res.append("Set-Cookie", v)] of Express. *)
Definition append_set_cookie (v : string) (res : t) : t :=
  let prev := headers res !! "set-cookie" in
  let next :=
    match prev with
    | None => HStr v
    | Some (HStr p) => HArr [p; v]
    | Some (HArr l) => HArr (l ++ [v])
    end in
  setHeader "set-cookie" next res.

(** [res.cookie(name, value, options)] *)
Definition cookie `{ExpressApi} (name value : string) (o : CookieOptions) (res : t) : t :=
  append_set_cookie (cookie_serialize name value o) res.
End Res.

(** ** Node: how raw header lines become [headers] *)

Module Node.
(** Headers of which only the first occurrence is kept. *)
Definition keep_first : list string :=
  ["age"; "authorization"; "content-length"; "content-type"; "etag";
   "expires"; "from"; "host"; "if-modified-since"; "if-unmodified-since";
   "last-modified"; "location"; "max-forwards"; "proxy-authorization";
   "referer"; "retry-after"; "server"; "user-agent"].

Definition add_header (h : gmap string header_value) (line : string * string)
  : gmap string header_value :=
  let k := Js.toLowerCase line.1 in
  if decide (k = "set-cookie") then
    match h !! k with
    | Some (HArr l) => <[k := HArr (l ++ [line.2])]> h
    | _ => <[k := HArr [line.2]]> h
    end
  else
    match h !! k with
    | None => <[k := HStr line.2]> h
    | Some (HStr old) =>
        if decide (k ∈ keep_first) then h
        else if decide (k = "cookie") then <[k := HStr (old +:+ "; " +:+ line.2)]> h
        else <[k := HStr (old +:+ ", " +:+ line.2)]> h
    | Some (HArr _) => h
    end.

Definition incoming_headers (raw : list (string * string)) : gmap string header_value :=
  fold_left add_header raw ∅.
End Node.

(** ** index.js *)

(** What a request handler leaves behind: a response it wrote itself, a
    call of [proxy.web], or an exception. *)
Inductive route_result : Type :=
| Responded (res : Res.t)
| ProxyWeb (req : Req.t) (res : Res.t) (target : string) (autoRewrite : bool)
| RouteThrew.

(** What the upgrade listener leaves behind: the client socket destroyed, a
    call of [proxy.ws], or an exception. *)
Inductive upgrade_result : Type :=
| SocketDestroyed
| ProxyWs (req : Req.t) (target : string)
| UpgradeThrew.

Definition USER_AGENT : string :=
  "Mozilla/5.0 (Windows NT 10.0; Win64; x64) AppleWebKit/537.36 (KHTML, like Gecko) Chrome Safari".

Section Index.
Context `{UrlApi} `{ExpressApi}.

(** [const ALLOWLIST = null] in the file as shipped; a list when the
    operator configures one. *)
Variable ALLOWLIST : option (list string).

Definition allowedHost (hostname : string) : bool :=
  match ALLOWLIST with
  | None => true
  | Some l =>
      existsb (fun h => bool_decide (h = hostname)
                        || Js.endsWith hostname ("." +:+ h)) l
  end.

(** [proxy.on("error", (err, req, res) => ...)]: the console line and the
    response. *)
Definition on_error (err : JsError) (req : Req.t) (res : Res.t)
  : string * Res.t :=
  let line := "Proxy error: " +:+ Js.or_else (message err) (detail err) in
  let res1 :=
    if negb (Res.headersSent res)
    then Res.writeHead 502 {[ "content-type" := HStr "text/plain" ]} res
    else res in
  (line, Res.end_ "Proxy error" res1).

(** The arrow function mapped over the set-cookie array. *)
Definition rewrite_cookie (host : option string) (c : string) : string :=
  let c1 := Js.replace_domain c ("; Domain=" +:+ Js.template host) in
  let c2 := if negb (Js.attr_test "samesite=" c1)
            then c1 +:+ "; SameSite=None" else c1 in
  let c3 := if negb (Js.attr_test "secure" c2)
            then c2 +:+ "; Secure" else c2 in
  c3.

(** The redirect part of the proxyRes hook. *)
Definition rewrite_location (req : Req.t) (h : gmap string header_value)
  : gmap string header_value :=
  match h !! "location" with
  | Some loc =>
      if truthy_value loc then
        let base := match Req._targetOrigin req with
                    | Some o => if Js.truthy o then Some o else None
                    | None => None
                    end in
        match URL_new (to_string loc) base with
        | Some absolute =>
            <[ "location" :=
                 HStr ("/proxy?url=" +:+ Js.encodeURIComponent (href absolute)) ]> h
        | None => h
        end
      else h
  | None => h
  end.

(** [proxy.on("proxyRes", (proxyRes, req, res) => ...)], as a function on
    [proxyRes.headers].  Calling map on a set-cookie that is a string
    throws; Node always delivers an array. *)
Definition on_proxyRes (headers : gmap string header_value) (req : Req.t)
  : completion (gmap string header_value) :=
  let h1 := delete "content-security-policy" headers in
  let h2 := delete "content-security-policy-report-only" h1 in
  let h3 := delete "x-frame-options" h2 in
  let h4 := rewrite_location req h3 in
  match h4 !! "set-cookie" with
  | Some (HArr setCookies) =>
      let host := Req.headers req !! "host" in
      Return (<[ "set-cookie" := HArr (map (rewrite_cookie host) setCookies) ]> h4)
  | Some (HStr s) => if Js.truthy s then Throw else Return h4
  | None => Return h4
  end.

(** [proxy.on("proxyReq", (proxyReq, req) => ...)], as a function on the
    headers of the request being sent upstream. *)
Definition on_proxyReq (proxyReq : gmap string string) (req : Req.t)
  : gmap string string :=
  match Req._targetOrigin req with
  | Some upstreamOrigin =>
      if Js.truthy upstreamOrigin then
        let p1 := <[ "origin" := upstreamOrigin ]> proxyReq in
        let p2 := <[ "referer" := upstreamOrigin +:+ "/" ]> p1 in
        match Req.headers req !! "user-agent" with
        | Some ua => if Js.truthy ua then p2 else <[ "user-agent" := USER_AGENT ]> p2
        | None => <[ "user-agent" := USER_AGENT ]> p2
        end
      else proxyReq
  | None => proxyReq
  end.

(** [parseTargetFromReq(fullUrl, base)].  The first constructor call is
    outside the try block: when it throws, the function throws. *)
Definition parseTargetFromReq (fullUrl base : string) : completion (option URL) :=
  match URL_new fullUrl (Some base) with
  | None => Throw
  | Some u =>
      match searchParams_get u "url" with
      | None => Return None
      | Some raw => if Js.truthy raw then Return (URL_new raw None) else Return None
      end
  end.

Definition last_target_options : CookieOptions :=
  {| httpOnly := false; sameSite := "Lax"; maxAge := 1000 * 60 * 60 * 24 * 14 |}.

(** [(req.headers["x-forwarded-proto"] || "").split(",")[0]
     || req.protocol || "https"] *)
Definition forwarded_proto (req : Req.t) : string :=
  let first := Js.before_comma (Js.or_else (Req.headers req !! "x-forwarded-proto") "") in
  if Js.truthy first then first
  else if Js.truthy (Req.protocol req) then Req.protocol req
  else "https".

(** [app.use("/proxy", (req, res) => ...)]; [req.url] is the request URL
    with the mount path removed. *)
Definition proxy_route (req : Req.t) (res : Res.t) : route_result :=
  match parseTargetFromReq (Req.url req) "http://proxy.local" with
  | Throw => RouteThrew
  | Return None => Responded (Res.send "Missing or invalid ?url=" (Res.status 400 res))
  | Return (Some targetUrl) =>
      if negb (allowedHost (hostname targetUrl)) then
        Responded (Res.send "Target host not allowed." (Res.status 403 res))
      else
        let res1 := Res.cookie "last_target" (origin targetUrl) last_target_options res in
        let req1 :=
          {| Req.url := pathname targetUrl +:+ search targetUrl +:+ hash targetUrl;
             Req.headers := Req.headers req;
             Req.protocol := Req.protocol req;
             Req._targetOrigin := Some (origin targetUrl);
             Req._proto := Some (forwarded_proto req) |} in
        ProxyWeb req1 res1 (origin targetUrl) true
  end.

(** [server.on("upgrade", (req, socket, head) => ...)]; here [req.url] is
    the request URL as received. *)
Definition on_upgrade (req : Req.t) : upgrade_result :=
  match parseTargetFromReq (Req.url req) "http://proxy.local" with
  | Throw => UpgradeThrew
  | Return None => SocketDestroyed
  | Return (Some targetUrl) =>
      if negb (allowedHost (hostname targetUrl)) then SocketDestroyed
      else
        let req1 :=
          {| Req.url := pathname targetUrl +:+ search targetUrl +:+ hash targetUrl;
             Req.headers := Req.headers req;
             Req.protocol := Req.protocol req;
             Req._targetOrigin := Some (origin targetUrl);
             Req._proto := Req._proto req |} in
        ProxyWs req1 (origin targetUrl)
  end.

(** *** http-proxy: what [proxy.web] does with the hooks

    The request sent upstream carries the headers http-proxy prepares
    from the client's ([setupOutgoing]) after the proxyReq hook has run.
    When the upstream answers, the proxyRes hook runs first; then the
    passes of web-outgoing copy status and headers to the client response
    (the redirect pass may replace Location on the way) and the body is
    piped.  When the upstream fails, the error hook runs. *)

Record Outgoing := {
  out_target : string;
  out_path : string;
  out_headers : gmap string string;
}.

Inductive upstream_outcome : Type :=
| Responds (proxyRes : ProxyRes.t)
| Fails (err : JsError).

Variable setupOutgoing : Req.t -> string -> gmap string string.
(** The redirect pass of web-outgoing: the new Location, if it writes one. *)
Variable setRedirectHostRewrite : Req.t -> string -> Z -> string -> option string.
Variable upstream : Outgoing -> upstream_outcome.

Definition outgoing (req : Req.t) (target : string) : Outgoing :=
  {| out_target := target; out_path := Req.url req;
     out_headers := on_proxyReq (setupOutgoing req target) req |}.

(** The writeHeaders and writeStatusCode passes followed by the pipe. *)
Definition relay (status : Z) (headers : gmap string header_value)
    (body : string) (res : Res.t) : Res.t :=
  if Res.headersSent res then Res.end_ body res
  else
    Res.end_ body
      {| Res.statusCode := status;
         Res.headers := headers ∪ Res.headers res;
         Res.headersSent := true;
         Res.body := Res.body res;
         Res.finished := Res.finished res |}.

Definition proxy_web (req : Req.t) (res : Res.t) (target : string)
    (autoRewrite : bool) : completion Res.t :=
  match upstream (outgoing req target) with
  | Fails err => Return (on_error err req res).2
  | Responds proxyRes =>
      match on_proxyRes (ProxyRes.headers proxyRes) req with
      | Throw => Throw
      | Return h =>
          let h' :=
            match h !! "location" with
            | Some loc =>
                if autoRewrite && truthy_value loc then
                  match setRedirectHostRewrite req target (ProxyRes.statusCode proxyRes)
                          (to_string loc) with
                  | Some loc' => <[ "location" := HStr loc' ]> h
                  | None => h
                  end
                else h
            | None => h
            end in
          Return (relay (ProxyRes.statusCode proxyRes) h' (ProxyRes.body proxyRes) res)
      end
  end.

(** A whole HTTP exchange on the /proxy route. *)
Definition exchange (req : Req.t) (res : Res.t) : completion Res.t :=
  match proxy_route req res with
  | Responded res' => Return res'
  | ProxyWeb req' res' target autoRewrite => proxy_web req' res' target autoRewrite
  | RouteThrew => Throw
  end.

End Index.

(** ** The simpler variant of the server

    The repository carries an earlier, simpler server next to index.js: the
    target travels in [?target=], Set-Cookie is passed through, only
    absolute redirects are rewritten and no header is stripped.  Its
    handlers are kept here for comparison. *)

Module Simple.
Section Simple.
Context `{UrlApi} `{ExpressApi}.

(** [proxy.on("proxyRes", ...)]: the upstream headers and the response. *)
Definition on_proxyRes (headers : gmap string header_value) (req : Req.t)
    (res : Res.t) : gmap string header_value * Res.t :=
  let res1 :=
    match headers !! "set-cookie" with
    | Some setCookie =>
        if truthy_value setCookie then Res.setHeader "set-cookie" setCookie res else res
    | None => res
    end in
  let headers1 :=
    match headers !! "location" with
    | Some location =>
        if truthy_value location then
          match URL_new (to_string location) None with
          | Some locUrl =>
              let proto := if Js.truthy (Req.protocol req) then Req.protocol req else "https" in
              let selfOrigin := proto +:+ "://" +:+ Js.template (Req.headers req !! "host") in
              <[ "location" :=
                   HStr (selfOrigin +:+ "/proxy?target=" +:+ Js.encodeURIComponent (href locUrl)) ]>
                headers
          | None => headers
          end
        else headers
    | None => headers
    end in
  (headers1, res1).

(** [getTargetUrl(reqUrl)] *)
Definition getTargetUrl (reqUrl : string) : completion (option string) :=
  match URL_new reqUrl (Some "http://placeholder") with
  | None => Throw
  | Some u =>
      match searchParams_get u "target" with
      | Some t => if Js.truthy t then Return (Some t) else Return None
      | None => Return None
      end
  end.

Definition proxy_route (req : Req.t) (res : Res.t) : route_result :=
  match getTargetUrl (Req.url req) with
  | Throw => RouteThrew
  | Return None => Responded (Res.send "Missing ?target=<url>" (Res.status 400 res))
  | Return (Some targetStr) =>
      match URL_new targetStr None with
      | None => Responded (Res.send "Invalid target URL" (Res.status 400 res))
      | Some targetUrl =>
          let res1 :=
            Res.cookie "last_target" (origin targetUrl)
              {| httpOnly := false; sameSite := "Lax";
                 maxAge := 1000 * 60 * 60 * 24 * 14 |} res in
          let req1 :=
            {| Req.url := pathname targetUrl +:+ search targetUrl +:+ hash targetUrl;
               Req.headers := Req.headers req;
               Req.protocol := Req.protocol req;
               Req._targetOrigin := Req._targetOrigin req;
               Req._proto := Req._proto req |} in
          ProxyWeb req1 res1 (origin targetUrl) false
      end
  end.

(** [server.on("upgrade", ...)]: the whole body sits in a try block whose
    handler destroys the socket. *)
Definition on_upgrade (req : Req.t) : upgrade_result :=
  match URL_new (Req.url req) (Some "http://placeholder") with
  | None => SocketDestroyed
  | Some reqUrl =>
      match searchParams_get reqUrl "target" with
      | None => SocketDestroyed
      | Some targetStr =>
          if negb (Js.truthy targetStr) then SocketDestroyed
          else
            match URL_new targetStr None with
            | None => SocketDestroyed
            | Some targetUrl =>
                ProxyWs
                  {| Req.url := pathname targetUrl +:+ search targetUrl +:+ hash targetUrl;
                     Req.headers := Req.headers req;
                     Req.protocol := Req.protocol req;
                     Req._targetOrigin := Req._targetOrigin req;
                     Req._proto := Req._proto req |}
                  (origin targetUrl)
            end
      end
  end.
End Simple.
End Simple.

(** ** A reference implementation of the URL class

    [Whatwg] follows the URL Standard's parser and serialiser on the part
    of the language a proxy target lives in: the schemes http, https, ws,
    wss and ftp with an ASCII host, and every non-special scheme.  It
    reports failure for what it leaves out: credentials, IPv6 literals,
    IPv4 addresses written other than as four decimal numbers, non-ASCII
    hosts and the file scheme.  The handlers above never refer to it; it
    serves to run them on concrete requests. *)

Module Whatwg.
Import Js.

Definition ceq (a b : ascii) : bool := if ascii_dec a b then true else false.

Definition one_of (l : list ascii) (c : ascii) : bool := existsb (ceq c) l.

Fixpoint sall (p : ascii -> bool) (s : string) : bool :=
  match s with
  | EmptyString => true
  | String c s' => p c && sall p s'
  end.

Fixpoint sfilter (p : ascii -> bool) (s : string) : string :=
  match s with
  | EmptyString => EmptyString
  | String c s' => if p c then String c (sfilter p s') else sfilter p s'
  end.

(** The longest prefix free of characters in [p], and the rest. *)
Fixpoint break (p : ascii -> bool) (s : string) : string * string :=
  match s with
  | EmptyString => (EmptyString, EmptyString)
  | String c s' =>
      if p c then (EmptyString, s)
      else let '(a, b) := break p s' in (String c a, b)
  end.

(** The text before the first [d], and the text after it if there is one. *)
Definition cut (d : ascii) (s : string) : string * option string :=
  match break (ceq d) s with
  | (a, String _ b) => (a, Some b)
  | (a, EmptyString) => (a, None)
  end.

Fixpoint drop_while (p : ascii -> bool) (s : string) : string :=
  match s with
  | String c s' => if p c then drop_while p s' else s
  | EmptyString => EmptyString
  end.

(** The pieces of [s] between the characters in [p]. *)
Fixpoint split_on (p : ascii -> bool) (s : string) : list string :=
  match s with
  | EmptyString => [EmptyString]
  | String c s' =>
      if p c then EmptyString :: split_on p s'
      else match split_on p s' with
           | x :: r => String c x :: r
           | [] => [String c EmptyString]
           end
  end.

(** *** Input clean-up *)

Definition c0_or_space (c : ascii) : bool := (code c <=? 32)%N.
Definition tab_or_newline (c : ascii) : bool :=
  (code c =? 9)%N || (code c =? 10)%N || (code c =? 13)%N.

Fixpoint rstrip (s : string) : string :=
  match s with
  | EmptyString => EmptyString
  | String c s' =>
      match rstrip s' with
      | EmptyString => if c0_or_space c then EmptyString else String c EmptyString
      | r => String c r
      end
  end.

Definition clean (s : string) : string :=
  sfilter (fun c => negb (tab_or_newline c)) (rstrip (drop_while c0_or_space s)).

(** *** Percent-encode sets *)

Definition c0_set (c : ascii) : bool := (code c <? 32)%N || (126 <? code c)%N.
Definition fragment_set (c : ascii) : bool :=
  c0_set c || one_of [" "; "034"; "<"; ">"; "`"]%char c.
Definition query_set (c : ascii) : bool :=
  c0_set c || one_of [" "; "034"; "#"; "<"; ">"]%char c.
Definition special_query_set (c : ascii) : bool :=
  query_set c || ceq c "'"%char.
Definition path_set (c : ascii) : bool :=
  query_set c || one_of ["?"; "^"; "`"; "{"; "}"]%char c.

Fixpoint encode (set : ascii -> bool) (s : string) : string :=
  match s with
  | EmptyString => EmptyString
  | String c s' =>
      let r := encode set s' in
      if set c then
        if (code c <? 128)%N then pct (code c) r
        else pct (192 + code c / 64) (pct (128 + code c mod 64) r)
      else String c r
  end.

(** Percent-decoding leaves a malformed escape as it is. *)
Fixpoint percent_decode (s : string) : string :=
  match s with
  | EmptyString => EmptyString
  | String c s' =>
      match s' with
      | String h (String l r) =>
          match (if ceq c "%"%char then hex_value h else None), hex_value l with
          | Some a, Some b => String (ascii_of_N (16 * a + b)) (percent_decode r)
          | _, _ => String c (percent_decode s')
          end
      | _ => String c (percent_decode s')
      end
  end.

(** *** The URL record *)

Inductive path_t : Type :=
| Opaque (p : string)
| Segments (l : list string).

Record url_record := {
  scheme : string;
  host : option string;
  port : option N;
  path : path_t;
  query : option string;
  fragment : option string;
}.

#[export] Instance path_eq_dec : EqDecision path_t.
Proof. solve_decision. Defined.

#[export] Instance url_record_eq_dec : EqDecision url_record.
Proof. solve_decision. Defined.

Definition special_port (sch : string) : option N :=
  if string_dec sch "http" then Some 80%N
  else if string_dec sch "https" then Some 443%N
  else if string_dec sch "ws" then Some 80%N
  else if string_dec sch "wss" then Some 443%N
  else if string_dec sch "ftp" then Some 21%N
  else None.

Definition is_special (sch : string) : bool :=
  match special_port sch with Some _ => true | None => false end.

(** *** Scheme *)

Definition scheme_char (c : ascii) : bool :=
  is_alnum c || one_of ["+"; "-"; "."]%char c.

Definition scheme_of (s : string) : option (string * string) :=
  match s with
  | String c _ =>
      if is_alpha c then
        match break (fun x => negb (scheme_char x)) s with
        | (a, String d r) => if ceq d ":"%char then Some (toLowerCase a, r) else None
        | (_, EmptyString) => None
        end
      else None
  | EmptyString => None
  end.

(** *** Host and port *)

Definition forbidden_host (c : ascii) : bool :=
  existsb (N.eqb (code c)) [0; 9; 10; 13; 32; 35; 47; 58; 60; 62; 63; 64; 91; 92; 93; 94; 124]%N.

Definition forbidden_domain (c : ascii) : bool :=
  forbidden_host c || (code c <=? 31)%N || (code c =? 37)%N || (code c =? 127)%N.

Definition all_digits (s : string) : bool :=
  negb (bool_decide (s = EmptyString)) && sall is_digit s.

Fixpoint digits_value (acc : N) (s : string) : N :=
  match s with
  | EmptyString => acc
  | String c s' => digits_value (10 * acc + (code c - 48)) s'
  end.

Definition is_hex (c : ascii) : bool :=
  match hex_value c with Some _ => true | None => false end.

(** The last label, after one trailing dot is set aside, is a number. *)
Definition ends_in_number (d : string) : bool :=
  let parts := split_on (ceq "."%char) d in
  let parts' := match rev parts with
                | EmptyString :: (_ :: _) as r => r
                | r => EmptyString :: r
                end in
  match parts' with
  | _ :: lst :: _ =>
      all_digits lst ||
      match lst with
      | String z (String x r) =>
          ceq z "0"%char && ceq (lower x) "x"%char && sall is_hex r
      | _ => false
      end
  | _ => false
  end.

Definition decimal_octet (s : string) : bool :=
  all_digits s && (String.length s <=? 3)%nat && (digits_value 0 s <=? 255)%N
  && (bool_decide (s = "0") || negb (startsWith s "0")).

Definition canonical_ipv4 (d : string) : bool :=
  let parts := split_on (ceq "."%char) d in
  (length parts =? 4)%nat && forallb decimal_octet parts.

Definition parse_domain (h : string) : option string :=
  let d := toLowerCase (percent_decode h) in
  if bool_decide (d = EmptyString) then None
  else if negb (sall (fun c => negb (forbidden_domain c) && (code c <? 128)%N) d) then None
  else if ends_in_number d then (if canonical_ipv4 d then Some d else None)
  else Some d.

Definition parse_opaque_host (h : string) : option string :=
  if sall (fun c => negb (forbidden_host c)) h then Some (encode c0_set h) else None.

(** [Some None]: no port, or the scheme's default. *)
Definition parse_port (sch p : string) : option (option N) :=
  if bool_decide (p = EmptyString) then Some None
  else if sall is_digit p then
    let n := digits_value 0 p in
    if (n <=? 65535)%N then
      Some (if bool_decide (special_port sch = Some n) then None else Some n)
    else None
  else None.

Fixpoint print_dec (fuel : nat) (n : N) (acc : string) : string :=
  match fuel with
  | O => acc
  | S f =>
      let acc' := String (ascii_of_N (48 + n mod 10)) acc in
      if (n / 10 =? 0)%N then acc' else print_dec f (n / 10) acc'
  end.

Definition print_port (n : N) : string := print_dec 5 n EmptyString.

(** *** Path *)

Definition is_slash (special : bool) (c : ascii) : bool :=
  ceq c "/"%char || (special && ceq c "\"%char).

Definition single_dot (seg : string) : bool :=
  let s := toLowerCase seg in
  bool_decide (s = ".") || bool_decide (s = "%2e").

Definition double_dot (seg : string) : bool :=
  let s := toLowerCase seg in
  bool_decide (s = "..") || bool_decide (s = ".%2e")
  || bool_decide (s = "%2e.") || bool_decide (s = "%2e%2e").

(** The path state, one segment at a time. *)
Fixpoint path_state (acc : list string) (segs : list string) : list string :=
  match segs with
  | [] => acc
  | seg :: rest =>
      let last := match rest with [] => true | _ => false end in
      if double_dot seg then
        path_state (if last then removelast acc ++ [EmptyString] else removelast acc) rest
      else if single_dot seg then
        path_state (if last then acc ++ [EmptyString] else acc) rest
      else path_state (acc ++ [encode path_set seg]) rest
  end.

Definition path_of (special : bool) (acc : list string) (text : string) : list string :=
  path_state acc (split_on (is_slash special) text).

Definition after_slash (special : bool) (text : string) : string :=
  match text with
  | String c r => if is_slash special c then r else text
  | EmptyString => EmptyString
  end.

(** *** The parser *)

Definition encode_query (sch : string) (q : option string) : option string :=
  encode (if is_special sch then special_query_set else query_set) <$> q.

Definition encode_fragment (f : option string) : option string :=
  encode fragment_set <$> f.

(** Authority state and what follows it; [a] is the input after the two
    slashes. *)
Definition with_authority (sch a : string) (q frag : option string)
  : option url_record :=
  let special := is_special sch in
  let '(auth, rest) := break (is_slash special) a in
  if negb (sall (fun c => negb (one_of ["@"; "["]%char c)) auth) then None
  else
    let '(h, p) := cut ":" auth in
    if bool_decide (h = EmptyString) && bool_decide (p ≠ None) then None
    else
      match (if special then parse_domain h else parse_opaque_host h),
            parse_port sch (default EmptyString p) with
      | Some h', Some p' =>
          let segs :=
            if negb special && bool_decide (rest = EmptyString) then []
            else path_of special [] (after_slash special rest) in
          Some {| scheme := sch; host := Some h'; port := p';
                  path := Segments segs;
                  query := encode_query sch q;
                  fragment := encode_fragment frag |}
      | _, _ => None
      end.

(** Relative state: [hier] is the input up to the query. *)
Definition relative (b : url_record) (hier : string) (q frag : option string)
  : option url_record :=
  let sch := scheme b in
  let special := is_special sch in
  let on_base (segs : list string) (q' : option string) :=
    Some {| scheme := sch; host := host b; port := port b;
            path := Segments segs; query := q';
            fragment := encode_fragment frag |} in
  match path b with
  | Opaque _ => None
  | Segments bp =>
      match hier with
      | EmptyString =>
          on_base bp (match q with Some _ => encode_query sch q | None => query b end)
      | String c r =>
          if is_slash special c then
            match r with
            | String d r' =>
                if is_slash special d then
                  with_authority sch
                    (if special then drop_while (is_slash true) r' else r') q frag
                else on_base (path_of special [] r) (encode_query sch q)
            | EmptyString => on_base (path_of special [] r) (encode_query sch q)
            end
          else on_base (path_of special (removelast bp) hier) (encode_query sch q)
      end
  end.

(** What follows a scheme; [hier] is the input between the colon and the
    query. *)
Definition after_scheme (sch hier : string) (q frag : option string)
    (base : option url_record) : option url_record :=
  if string_dec sch "file" then None
  else if is_special sch then
    match base with
    | Some b =>
        if bool_decide (scheme b = sch) && negb (startsWith hier "//")
        then relative b hier q frag
        else with_authority sch (drop_while (is_slash true) hier) q frag
    | None => with_authority sch (drop_while (is_slash true) hier) q frag
    end
  else
    match hier with
    | String "/" (String "/" a) => with_authority sch a q frag
    | String "/" r =>
        Some {| scheme := sch; host := None; port := None;
                path := Segments (path_of false [] r);
                query := encode_query sch q;
                fragment := encode_fragment frag |}
    | _ =>
        Some {| scheme := sch; host := None; port := None;
                path := Opaque (encode c0_set hier);
                query := encode_query sch q;
                fragment := encode_fragment frag |}
    end.

(** No scheme state; [s1] is the input up to the fragment. *)
Definition without_scheme (s1 : string) (frag : option string)
    (base : option url_record) : option url_record :=
  match base with
  | None => None
  | Some b =>
      match path b with
      | Opaque _ =>
          match s1, frag with
          | EmptyString, Some _ =>
              Some {| scheme := scheme b; host := host b; port := port b;
                      path := path b; query := query b;
                      fragment := encode_fragment frag |}
          | _, _ => None
          end
      | Segments _ =>
          let '(hier, q) := cut "?" s1 in relative b hier q frag
      end
  end.

Definition parse (input : string) (base : option url_record) : option url_record :=
  let s := clean input in
  let '(s1, frag) := cut "#" s in
  match scheme_of s1 with
  | Some (sch, rest) =>
      let '(hier, q) := cut "?" rest in after_scheme sch hier q frag base
  | None => without_scheme s1 frag base
  end.

(** *** The serialiser and the getters *)

Fixpoint slash_join (l : list string) : string :=
  match l with
  | [] => ""
  | seg :: r => "/" +:+ seg +:+ slash_join r
  end.

Definition serialize_path (p : path_t) : string :=
  match p with
  | Opaque s => s
  | Segments l => slash_join l
  end.

Definition serialize_port (p : option N) : string :=
  match p with Some n => ":" +:+ print_port n | None => "" end.

(** The part of a serialised URL between the scheme's colon and the
    query: the authority, or the [/.] that keeps a path starting with an
    empty segment from being read as one, and then the path. *)
Definition hier_text (u : url_record) : string :=
  match host u with
  | Some h => "//" +:+ h +:+ serialize_port (port u)
  | None =>
      match path u with
      | Segments (EmptyString :: _ :: _) => "/."
      | _ => ""
      end
  end +:+ serialize_path (path u).

Definition query_text (q : option string) : string :=
  match q with Some q => String "?" q | None => "" end.

Definition fragment_text (f : option string) : string :=
  match f with Some f => String "#" f | None => "" end.

Definition serialize (u : url_record) : string :=
  scheme u +:+ String ":" (hier_text u +:+ query_text (query u)
                           +:+ fragment_text (fragment u)).

Definition get_origin (u : url_record) : string :=
  if is_special (scheme u)
  then scheme u +:+ "://" +:+ default "" (host u) +:+ serialize_port (port u)
  else "null".

Definition get_search (u : url_record) : string :=
  match query u with
  | Some (String c q) => String "?" (String c q)
  | _ => ""
  end.

Definition get_hash (u : url_record) : string :=
  match fragment u with
  | Some (String c f) => String "#" (String c f)
  | _ => ""
  end.

(** *** URLSearchParams *)

Fixpoint plus_to_space (s : string) : string :=
  match s with
  | EmptyString => EmptyString
  | String c s' => String (if ceq c "+"%char then " "%char else c) (plus_to_space s')
  end.

(** UTF-8 decoding of the two-byte sequences, which cover the code
    points from 128 to 255; other bytes are kept as they are. *)
Fixpoint utf8_decode (s : string) : string :=
  match s with
  | EmptyString => EmptyString
  | String c s' =>
      match s' with
      | String d r =>
          if ((194 <=? code c) && (code c <=? 195) && (128 <=? code d) && (code d <=? 191))%N
          then String (ascii_of_N ((code c - 192) * 64 + (code d - 128))) (utf8_decode r)
          else String c (utf8_decode s')
      | EmptyString => String c EmptyString
      end
  end.

Definition form_decode (s : string) : string :=
  utf8_decode (percent_decode (plus_to_space s)).

Definition form_pairs (q : string) : list (string * string) :=
  map (fun piece => let '(n, v) := cut "=" piece in
                    (form_decode n, form_decode (default "" v)))
      (filter (fun piece => piece ≠ EmptyString) (split_on (ceq "&"%char) q)).

Definition get_param (u : url_record) (name : string) : option string :=
  snd <$> List.find (fun nv => bool_decide (nv.1 = name))
                    (form_pairs (default "" (query u))).

Definition new (input : string) (base : option string) : option url_record :=
  match base with
  | None => parse input None
  | Some b =>
      match parse b None with
      | Some ub => parse input (Some ub)
      | None => None
      end
  end.

#[export] Instance api : UrlApi := {|
  URL := url_record;
  URL_new := new;
  href := serialize;
  origin := get_origin;
  hostname := fun u => default "" (host u);
  pathname := fun u => serialize_path (path u);
  search := get_search;
  hash := get_hash;
  searchParams_get := get_param;
|}.

(** The cookie text without its Expires attribute, which depends on the
    clock. *)
#[export] Instance express : ExpressApi := {|
  cookie_serialize := fun name value o =>
    name +:+ "=" +:+ encodeURIComponent value
    +:+ "; Max-Age=" +:+ print_dec 20 (Z.to_N (maxAge o / 1000)) ""
    +:+ "; Path=/"
    +:+ (if httpOnly o then "; HttpOnly" else "")
    +:+ "; SameSite=" +:+ sameSite o
|}.

End Whatwg.

(** ** Vocabulary of the statements *)

(** [hostname] is [h] with at least one more label in front. *)
Definition subdomain_of (hostname h : string) : Prop :=
  ∃ p, hostname = p +:+ "." +:+ h.

(** The response carries the Set-Cookie text [c]. *)
Definition has_cookie (res : Res.t) (c : string) : Prop :=
  match Res.headers res !! "set-cookie" with
  | Some (HStr s) => s = c
  | Some (HArr l) => c ∈ l
  | None => False
  end.

(** The three headers the proxyRes hook strips. *)
Definition blocking_headers : list string :=
  ["content-security-policy"; "content-security-policy-report-only"; "x-frame-options"].

(** The response as Express hands it to a handler: nothing written yet. *)
Definition untouched (res : Res.t) : Prop :=
  Res.headersSent res = false ∧ Res.finished res = false ∧ Res.body res = "".

(** What a client reads out of a rewritten Location: the text after
    [/proxy?url=], decoded. *)
Definition extract_url_param (location : string) : option string :=
  match location with
  | String "/" (String "p" (String "r" (String "o" (String "x" (String "y"
      (String "?" (String "u" (String "r" (String "l" (String "=" enc)))))))))) =>
      Js.decodeURIComponent enc
  | _ => None
  end.

(** The cookie pair: the text of a Set-Cookie value up to its first
    semicolon. *)
Definition cookie_pair (c : string) : string := (Js.span_no_semi c).1.

(** A request and a response to run the handlers on: a browser behind the
    host proxy.test asking for [url], and the response Express starts
    with. *)
Definition demo_req (url : string) : Req.t :=
  {| Req.url := url;
     Req.headers := {[ "host" := "proxy.test" ]};
     Req.protocol := "https";
     Req._targetOrigin := None;
     Req._proto := None |}.

Definition demo_res : Res.t :=
  {| Res.statusCode := 200;
     Res.headers := {[ "x-powered-by" := HStr "Express" ]};
     Res.headersSent := false;
     Res.body := "";
     Res.finished := false |}.

(** Every code unit, to settle a property of single characters by running
    it on all of them. *)
Definition all_ascii : list ascii := map ascii_of_nat (seq 0 256).

(** ** Vocabulary of the further properties *)

(** The base the proxyRes hook resolves a Location against:
    [req._targetOrigin || undefined]. *)
Definition resolution_base (req : Req.t) : option string :=
  match Req._targetOrigin req with
  | Some o => if Js.truthy o then Some o else None
  | None => None
  end.

(** The request the /proxy route leaves for the hooks when the target is
    https://up.example/start. *)
Definition demo_dispatched : Req.t :=
  {| Req.url := "/start";
     Req.headers := {[ "host" := "proxy.test" ]};
     Req.protocol := "https";
     Req._targetOrigin := Some "https://up.example";
     Req._proto := Some "https" |}.

(** The text [s] has no character [a]. *)
Fixpoint lacks (a : ascii) (s : string) : bool :=
  match s with
  | EmptyString => true
  | String c s' => if ascii_dec c a then false else lacks a s'
  end.

(** The text [s] is made of white space only. *)
Fixpoint blank (s : string) : bool :=
  match s with
  | EmptyString => true
  | String c s' => Js.is_space c && blank s'
  end.

(** The texts the cookie rewrite may append. *)
Definition appended_attributes : list string :=
  [""; "; SameSite=None"; "; Secure"; "; SameSite=None; Secure"].

(** The headers the proxyReq hook may write. *)
Definition normalised_headers : list string := ["origin"; "referer"; "user-agent"].

(** ** The /go routes

    The handlers read [req.query.u] and [req.cookies.recent_targets]; they
    are functions of these two values and of the response. *)

(** [req.query.u] as Express's query parser leaves it: a string, or, for
    [u[]=..] and [u[k]=..], an array or object, given here by the text
    string conversion makes of it. *)
Inductive query_value : Type :=
| QStr (s : string)
| QNested (text : string).

Definition query_truthy (u : query_value) : bool :=
  match u with
  | QStr s => Js.truthy s
  | QNested _ => true
  end.

Definition query_text (u : query_value) : string :=
  match u with
  | QStr s => s
  | QNested text => text
  end.

(** A cookie as cookie-parser leaves it: a string, or, for a value
    written [j:] and JSON, the parsed value when it is truthy and not a
    string (a number, [true], an array or an object). *)
Inductive cookie_value : Type :=
| CStr (s : string)
| CJson.

(** What a /go handler leaves behind: a call of [res.redirect] on the
    response as it then is, or an exception. *)
Inductive go_result : Type :=
| GoRedirect (address : string) (res : Res.t)
| GoThrew.

Module JsArray.
(** [s.split(",")] *)
Fixpoint split (s : string) : list string :=
  match s with
  | EmptyString => [EmptyString]
  | String c s' =>
      if ascii_dec c ","%char then EmptyString :: split s'
      else match split s' with
           | x :: r => String c x :: r
           | [] => [String c EmptyString]
           end
  end.

(** [l.filter(Boolean)] on strings *)
Definition filter_Boolean (l : list string) : list string := List.filter Js.truthy l.

(** [l.includes(x)] on strings *)
Definition includes (l : list string) (x : string) : bool := bool_decide (x ∈ l).

(** [l.join(",")] *)
Fixpoint join (l : list string) : string :=
  match l with
  | [] => EmptyString
  | [x] => x
  | x :: r => x +:+ "," +:+ join r
  end.
End JsArray.

(** [(req.cookies.recent_targets || "").split(",").filter(Boolean)];
    [None] when the call of split throws, the cookie being no string. *)
Definition current_targets (recent : option cookie_value) : option (list string) :=
  match recent with
  | Some CJson => None
  | Some (CStr s) =>
      Some (JsArray.filter_Boolean (JsArray.split (if Js.truthy s then s else "")))
  | None => Some (JsArray.filter_Boolean (JsArray.split ""))
  end.

(** [if (!current.includes(x)) current.unshift(x)] followed by
    [current.slice(0, 8)]. *)
Definition next_targets (present : bool) (x : string) (current : list string)
  : list string :=
  take 8 (if negb present then x :: current else current).

Definition recent_targets_options : CookieOptions :=
  {| httpOnly := false; sameSite := "Lax"; maxAge := 1000 * 60 * 60 * 24 * 30 |}.

Section Go.
Context `{UrlApi} `{ExpressApi}.

(** [app.get("/go", (req, res) => ...)] of index.js.  Everything after
    the first test sits in a try block whose handler redirects to [/]. *)
Definition go_route (u : option query_value) (recent : option cookie_value)
    (res : Res.t) : go_result :=
  match u with
  | None => GoRedirect "/" res
  | Some u =>
      if negb (query_truthy u) then GoRedirect "/" res
      else
        match URL_new (query_text u) None with
        | None => GoRedirect "/" res
        | Some abs =>
            match current_targets recent with
            | None => GoRedirect "/" res
            | Some current =>
                let kept := next_targets (JsArray.includes current (href abs))
                              (href abs) current in
                let res1 := Res.cookie "recent_targets" (JsArray.join kept)
                              recent_targets_options res in
                GoRedirect ("/proxy?url=" +:+ Js.encodeURIComponent (href abs)) res1
            end
        end
  end.

(** [app.get("/go", ...)] of the simpler variant: no try block and no
    URL constructor; an array or object is never found by includes. *)
Definition simple_go_route (u : option query_value) (recent : option cookie_value)
    (res : Res.t) : go_result :=
  match u with
  | None => GoRedirect "/" res
  | Some u =>
      if negb (query_truthy u) then GoRedirect "/" res
      else
        match current_targets recent with
        | None => GoThrew
        | Some current =>
            let present := match u with
                           | QStr s => JsArray.includes current s
                           | QNested _ => false
                           end in
            let trimmed := next_targets present (query_text u) current in
            let res1 := Res.cookie "recent_targets" (JsArray.join trimmed)
                          recent_targets_options res in
            GoRedirect ("/proxy?target=" +:+ Js.encodeURIComponent (query_text u)) res1
        end
  end.
End Go.

(** The text after [prefix] in [s]. *)
Fixpoint strip_prefix (prefix s : string) : option string :=
  match prefix, s with
  | EmptyString, _ => Some s
  | String a p, String b r => if ascii_dec a b then strip_prefix p r else None
  | String _ _, EmptyString => None
  end.


(** The URL the /go route of index.js builds from [req.query.u], if any. *)
Definition go_target `{UrlApi} (u : option query_value) : option URL :=
  match u with
  | Some q => if query_truthy q then URL_new (query_text q) None else None
  | None => None
  end.

(** What a client reads out of a redirect of the simpler variant: the
    text after [/proxy?target=], decoded. *)
Definition extract_target_param (location : string) : option string :=
  match strip_prefix "/proxy?target=" location with
  | Some enc => Js.decodeURIComponent enc
  | None => None
  end.

(** * Properties *)

(** ** Strings *)

Lemma app_nil_l (s : string) : "" +:+ s = s.
Proof. reflexivity. Qed.

Lemma app_cons (c : ascii) (s t : string) : String c s +:+ t = String c (s +:+ t).
Proof. reflexivity. Qed.

Lemma append_nil_r (s : string) : s +:+ "" = s.
Proof. induction s as [|c s IH]; [done | by rewrite app_cons, IH]. Qed.

Lemma append_assoc (a b c : string) : (a +:+ b) +:+ c = a +:+ (b +:+ c).
Proof. induction a as [|x a IH]; [done | by rewrite !app_cons, IH]. Qed.

Lemma length_append (a b : string) :
  String.length (a +:+ b) = (String.length a + String.length b)%nat.
Proof. induction a as [|x a IH]; [done | by rewrite app_cons; simpl; rewrite IH]. Qed.

Lemma truthy_true (s : string) : Js.truthy s = true ↔ s ≠ "".
Proof. destruct s; simpl; split; congruence. Qed.


(** [endsWith] finds exactly the suffixes. *)
Lemma endsWith_spec (s x : string) :
  Js.endsWith s x = true ↔ ∃ p, s = p +:+ x.
Proof.
  induction s as [|c s IH]; cbn [Js.endsWith].
  - destruct (String.eqb_spec "" x) as [<-|Hne].
    + split; [intros _; by exists "" | done].
    + split; [done |]. intros [p Hp]. destruct p, x; try done.
  - destruct (String.eqb_spec (String c s) x) as [<-|Hne].
    + split; [intros _; by exists "" | done].
    + rewrite IH. split.
      * intros [p ->]. by exists (String c p).
      * intros [[|d p] Hp]; [by rewrite app_nil_l in Hp |].
        rewrite app_cons in Hp. injection Hp as -> ->. by exists p.
Qed.

(** ** C5: the allowlist *)

Lemma allowedHost_spec (l : list string) (hostname : string) :
  allowedHost (Some l) hostname = true ↔
  ∃ h, h ∈ l ∧ (hostname = h ∨ subdomain_of hostname h).
Proof.
  unfold allowedHost, subdomain_of. rewrite existsb_exists. split.
  - intros (h & Hin & Hh). exists h. split; [by apply list_elem_of_In |].
    apply orb_true_iff in Hh as [Heq | Hend].
    + left. by apply bool_decide_eq_true in Heq.
    + right. by apply endsWith_spec in Hend.
  - intros (h & Hin & Hh). exists h. split; [by apply list_elem_of_In |].
    apply orb_true_iff. destruct Hh as [-> | Hsub].
    + left. by apply bool_decide_eq_true.
    + right. by apply endsWith_spec.
Qed.

Lemma statusCode_send (text : string) (code : Z) (res : Res.t) :
  Res.statusCode (Res.send text (Res.status code res)) = code.
Proof.
  unfold Res.send, Res.end_, Res.setHeader, Res.status; simpl.
  destruct (Res.headers res !! "content-type"); simpl; by destruct (Res.finished res).
Qed.

(** C5.  With an allowlist configured, a hostname passes exactly when it is
    an entry of the list or ends in a dot followed by an entry.  On the
    list {example.com}, the request for https://example.com/x is dispatched
    to that origin, the request for
    https://evil.example.com.attacker.net/x is answered 403, and so is
    every request whose resolved hostname does not pass. *)
Theorem allowlist_exact_or_subdomain :
  (∀ (l : list string) (hostname : string),
      allowedHost (Some l) hostname = true ↔
      ∃ h, h ∈ l ∧ (hostname = h ∨ subdomain_of hostname h))
  ∧ (∀ (hs : gmap string string) (proto : string) (res : Res.t),
      ∃ req' res',
        @proxy_route Whatwg.api Whatwg.express (Some ["example.com"])
          {| Req.url := "/?url=https://example.com/x"; Req.headers := hs;
             Req.protocol := proto; Req._targetOrigin := None; Req._proto := None |} res
        = ProxyWeb req' res' "https://example.com" true)
  ∧ (∀ (hs : gmap string string) (proto : string) (res : Res.t),
      ∃ res',
        @proxy_route Whatwg.api Whatwg.express (Some ["example.com"])
          {| Req.url := "/?url=https://evil.example.com.attacker.net/x"; Req.headers := hs;
             Req.protocol := proto; Req._targetOrigin := None; Req._proto := None |} res
        = Responded res' ∧ Res.statusCode res' = 403)
  ∧ (∀ (api : UrlApi) (ex : ExpressApi) (allow : option (list string))
       (req : Req.t) (res : Res.t) (t : URL),
      parseTargetFromReq (Req.url req) "http://proxy.local" = Return (Some t) ->
      allowedHost allow (hostname t) = false ->
      ∃ res', proxy_route allow req res = Responded res' ∧ Res.statusCode res' = 403).
Proof.
  split; [exact allowedHost_spec |]. split; [| split].
  - intros hs proto res. eexists _, _. vm_compute. reflexivity.
  - intros hs proto res. eexists. split; [vm_compute; reflexivity |].
    apply statusCode_send.
  - intros api ex allow req res t Hp Hno. unfold proxy_route. rewrite Hp, Hno. simpl.
    eexists. split; [reflexivity | apply statusCode_send].
Qed.

(** ** C8: the error hook *)

Lemma on_error_response (err : JsError) (req : Req.t) (res : Res.t) :
  (on_error err req res).2 =
  Res.end_ "Proxy error"
    (if negb (Res.headersSent res)
     then Res.writeHead 502 {[ "content-type" := HStr "text/plain" ]} res
     else res).
Proof. reflexivity. Qed.

(** C8, as the code has it.  When the head has not been sent the client
    gets status 502, Content-Type text/plain and the fixed text; when it
    has been sent, status and headers stay as they are, and the same fixed
    text is written after what was already sent before the response ends.
    In both cases the response does not depend on the error. *)
Theorem upstream_failure_response (err : JsError) (req : Req.t) (res : Res.t) :
  let r := (on_error err req res).2 in
  (Res.headersSent res = false -> Res.finished res = false ->
     Res.statusCode r = 502
     ∧ Res.headers r !! "content-type" = Some (HStr "text/plain")
     ∧ Res.body r = Res.body res +:+ "Proxy error"
     ∧ Res.finished r = true)
  ∧ (Res.headersSent res = true -> Res.finished res = false ->
     Res.statusCode r = Res.statusCode res
     ∧ Res.headers r = Res.headers res
     ∧ Res.body r = Res.body res +:+ "Proxy error"
     ∧ Res.finished r = true)
  ∧ (∀ err', (on_error err' req res).2 = r).
Proof.
  cbv zeta. rewrite on_error_response. split; [| split].
  - intros Hs Hf. rewrite Hs. cbn [negb]. unfold Res.end_, Res.writeHead. cbn.
    rewrite Hf. cbn. repeat split. apply lookup_union_Some_l, lookup_singleton_eq.
  - intros Hs Hf. rewrite Hs. cbn [negb]. unfold Res.end_. rewrite Hf. by cbn.
  - intros err'. by rewrite on_error_response.
Qed.

(** C8 as stated fails once the head is out: the hook does more than end
    the connection, it appends its text to the body in flight. *)
Lemma upstream_failure_appends_text :
  let res := {| Res.statusCode := 200; Res.headers := ∅; Res.headersSent := true;
                Res.body := "<html>"; Res.finished := false |} in
  let req := {| Req.url := "/"; Req.headers := ∅; Req.protocol := "http";
                Req._targetOrigin := None; Req._proto := None |} in
  Res.body (on_error {| message := Some "ECONNRESET"; detail := "" |} req res).2
  = "<html>Proxy error".
Proof. reflexivity. Qed.

(** ** C3: the stripped headers *)

Lemma add_header_set_cookie (h : gmap string header_value) (line : string * string) :
  (∀ s, h !! "set-cookie" ≠ Some (HStr s)) ->
  ∀ s, Node.add_header h line !! "set-cookie" ≠ Some (HStr s).
Proof.
  intros Hh s. unfold Node.add_header.
  destruct (decide (Js.toLowerCase line.1 = "set-cookie")) as [->|Hne].
  - destruct (h !! "set-cookie") as [[|]|]; by rewrite lookup_insert_eq.
  - destruct (h !! Js.toLowerCase line.1) as [[old|]|]; repeat case_decide;
      rewrite ?lookup_insert_ne; auto.
Qed.

Lemma incoming_set_cookie (raw : list (string * string)) (s : string) :
  Node.incoming_headers raw !! "set-cookie" ≠ Some (HStr s).
Proof.
  unfold Node.incoming_headers.
  assert (∀ h : gmap string header_value,
            (∀ s, h !! "set-cookie" ≠ Some (HStr s)) ->
            ∀ s, fold_left Node.add_header raw h !! "set-cookie" ≠ Some (HStr s)) as Hgen.
  { induction raw as [|line raw IH]; intros h Hh; [exact Hh |].
    cbn [fold_left]. apply IH. by apply add_header_set_cookie. }
  apply Hgen. intros s'. by rewrite lookup_empty.
Qed.

Section Stripping.
Context `{UrlApi}.

Lemma rewrite_location_other (req : Req.t) (h : gmap string header_value) (k : string) :
  k ≠ "location" -> rewrite_location req h !! k = h !! k.
Proof.
  intros Hk. unfold rewrite_location.
  destruct (h !! "location") as [loc|]; [| done].
  destruct (truthy_value loc); [| done].
  destruct (URL_new _ _); [| done]. by rewrite lookup_insert_ne.
Qed.


Lemma on_proxyRes_returns (raw : list (string * string)) (req : Req.t) :
  ∃ h, on_proxyRes (Node.incoming_headers raw) req = Return h.
Proof.
  unfold on_proxyRes. cbv zeta.
  destruct (rewrite_location req _ !! "set-cookie") as [[s|l]|] eqn:Hsc; eauto.
  exfalso. rewrite rewrite_location_other in Hsc by done.
  rewrite !lookup_delete_ne in Hsc by done.
  by apply incoming_set_cookie in Hsc.
Qed.

End Stripping.

Lemma headers_end (chunk : string) (res : Res.t) :
  Res.headers (Res.end_ chunk res) = Res.headers res.
Proof. unfold Res.end_. by destruct (Res.finished res). Qed.



Lemma headers_on_error_other (err : JsError) (req : Req.t) (res : Res.t) (k : string) :
  k ≠ "content-type" ->
  Res.headers (on_error err req res).2 !! k = Res.headers res !! k.
Proof.
  intros Hk. rewrite on_error_response, headers_end.
  destruct (negb (Res.headersSent res)); [| done]. cbn.
  rewrite lookup_union_r; [done |]. by rewrite lookup_singleton_ne.
Qed.


Section Exchange.
Context `{UrlApi} `{ExpressApi}.
Variable ALLOWLIST : option (list string).
Variable setupOutgoing : Req.t -> string -> gmap string string.
Variable setRedirectHostRewrite : Req.t -> string -> Z -> string -> option string.
Variable upstream : Outgoing -> upstream_outcome.




End Exchange.


(** ** C6: the headers sent upstream *)

Section Outbound.
Context `{UrlApi} `{ExpressApi}.
Variable ALLOWLIST : option (list string).

(** What [proxy_route] hands to [proxy.web]. *)
Lemma proxy_route_dispatch (req req1 : Req.t) (res res1 : Res.t) (target : string)
    (autoRewrite : bool) :
  proxy_route ALLOWLIST req res = ProxyWeb req1 res1 target autoRewrite ->
  ∃ t, parseTargetFromReq (Req.url req) "http://proxy.local" = Return (Some t)
       ∧ allowedHost ALLOWLIST (hostname t) = true
       ∧ target = origin t
       ∧ autoRewrite = true
       ∧ res1 = Res.cookie "last_target" (origin t) last_target_options res
       ∧ Req.url req1 = pathname t +:+ search t +:+ hash t
       ∧ Req.headers req1 = Req.headers req
       ∧ Req._targetOrigin req1 = Some (origin t).
Proof.
  unfold proxy_route.
  destruct (parseTargetFromReq _ _) as [[t|]|]; [| done | done].
  destruct (allowedHost ALLOWLIST (hostname t)) eqn:Ha; [| done].
  cbn [negb]. intros [= <- <- <- <-]. exists t. by repeat split.
Qed.

Lemma on_proxyReq_set (proxyReq : gmap string string) (req : Req.t) (o : string) :
  Req._targetOrigin req = Some o -> Js.truthy o = true ->
  let h := on_proxyReq proxyReq req in
  h !! "origin" = Some o
  ∧ h !! "referer" = Some (o +:+ "/")
  ∧ h !! "user-agent" =
      match Req.headers req !! "user-agent" with
      | Some ua => if Js.truthy ua then proxyReq !! "user-agent" else Some USER_AGENT
      | None => Some USER_AGENT
      end.
Proof.
  intros Ho Ht. cbv zeta. unfold on_proxyReq. rewrite Ho, Ht.
  destruct (Req.headers req !! "user-agent") as [ua|]; [destruct (Js.truthy ua) |];
    repeat split; by simplify_map_eq.
Qed.

End Outbound.

(** C6, as the code has it.  For every request the /proxy route dispatches,
    whatever headers http-proxy prepared, the proxyReq hook leaves Origin
    equal to the target's origin and Referer equal to that origin followed
    by a slash; User-Agent is left as prepared when the client sent a
    non-empty one, and is the built-in default when the client's is absent
    or empty. *)
Theorem outbound_headers_normalised (api : UrlApi) (ex : ExpressApi)
    (allow : option (list string)) (req req1 : Req.t) (res res1 : Res.t)
    (target : string) (autoRewrite : bool) (proxyReq : gmap string string) :
  (∀ u : URL, Js.truthy (origin u) = true) ->
  proxy_route allow req res = ProxyWeb req1 res1 target autoRewrite ->
  let h := on_proxyReq proxyReq req1 in
  (∃ t, parseTargetFromReq (Req.url req) "http://proxy.local" = Return (Some t)
        ∧ target = origin t)
  ∧ h !! "origin" = Some target
  ∧ h !! "referer" = Some (target +:+ "/")
  ∧ h !! "user-agent" =
      match Req.headers req !! "user-agent" with
      | Some ua => if Js.truthy ua then proxyReq !! "user-agent" else Some USER_AGENT
      | None => Some USER_AGENT
      end.
Proof.
  intros Horigin Hroute. cbv zeta.
  destruct (proxy_route_dispatch allow _ _ _ _ _ _ Hroute)
    as (t & Hp & _ & -> & _ & _ & _ & Hh & Ho).
  split; [by exists t |].
  destruct (on_proxyReq_set proxyReq req1 (origin t) Ho (Horigin t)) as (H1 & H2 & H3).
  by rewrite <- Hh.
Qed.

(** ** C10 and C7: a dispatched exchange *)

Lemma has_cookie_append (v : string) (res : Res.t) :
  has_cookie (Res.append_set_cookie v res) v.
Proof.
  unfold has_cookie, Res.append_set_cookie. cbn. rewrite lookup_insert_eq.
  destruct (Res.headers res !! "set-cookie") as [[p|l]|]; [| | done].
  - apply elem_of_cons. right. apply elem_of_cons. by left.
  - apply elem_of_app. right. apply elem_of_cons. by left.
Qed.

Lemma cookie_flags `{ExpressApi} (name value : string) (o : CookieOptions) (res : Res.t) :
  Res.headersSent (Res.cookie name value o res) = Res.headersSent res
  ∧ Res.finished (Res.cookie name value o res) = Res.finished res
  ∧ Res.body (Res.cookie name value o res) = Res.body res.
Proof. done. Qed.

Lemma on_error_unsent (err : JsError) (req : Req.t) (res : Res.t) :
  Res.headersSent res = false -> Res.finished res = false ->
  let r := (on_error err req res).2 in
  Res.statusCode r = 502
  ∧ Res.body r = Res.body res +:+ "Proxy error"
  ∧ Res.finished r = true.
Proof.
  intros Hs Hf. cbv zeta. rewrite on_error_response, Hs. cbn [negb].
  unfold Res.end_, Res.writeHead. cbn. rewrite Hf. by cbn.
Qed.

Lemma has_cookie_on_error (err : JsError) (req : Req.t) (res : Res.t) (c : string) :
  has_cookie res c -> has_cookie (on_error err req res).2 c.
Proof.
  unfold has_cookie. by rewrite (headers_on_error_other err req res "set-cookie").
Qed.

(** C10.  When the target resolves and its host passes the allowlist, the
    response handed to [proxy.web] already carries the proxy's own cookie:
    name last_target, value the target's origin, SameSite Lax, and a
    max-age of fourteen days (in milliseconds).  If the upstream then
    fails, the client gets status 502 and the cookie is still on the
    response. *)
Theorem last_target_cookie_set (api : UrlApi) (ex : ExpressApi)
    (allow : option (list string))
    (setupOutgoing : Req.t -> string -> gmap string string)
    (redirect : Req.t -> string -> Z -> string -> option string)
    (upstream : Outgoing -> upstream_outcome)
    (req : Req.t) (res : Res.t) (t : URL) :
  parseTargetFromReq (Req.url req) "http://proxy.local" = Return (Some t) ->
  allowedHost allow (hostname t) = true ->
  let c := cookie_serialize "last_target" (origin t)
             {| httpOnly := false; sameSite := "Lax";
                maxAge := 14 * (24 * 60 * 60 * 1000) |} in
  ∃ req1 res1,
    proxy_route allow req res = ProxyWeb req1 res1 (origin t) true
    ∧ has_cookie res1 c
    ∧ (∀ err,
         upstream (outgoing setupOutgoing req1 (origin t)) = Fails err ->
         Res.headersSent res = false -> Res.finished res = false ->
         ∃ r, exchange allow setupOutgoing redirect upstream req res = Return r
              ∧ Res.statusCode r = 502
              ∧ has_cookie r c).
Proof.
  intros Hp Ha. cbv zeta. unfold exchange, proxy_route. rewrite Hp, Ha. cbn [negb].
  eexists _, _. split; [reflexivity |]. split; [apply has_cookie_append |].
  intros err Hup Hs Hf. unfold proxy_web. rewrite Hup.
  eexists. split; [reflexivity |]. split.
  - by apply on_error_unsent.
  - apply has_cookie_on_error, has_cookie_append.
Qed.

Lemma relay_untouched (status : Z) (h : gmap string header_value) (body : string)
    (res : Res.t) :
  untouched res ->
  let r := relay status h body res in
  Res.statusCode r = status ∧ Res.body r = body ∧ Res.finished r = true.
Proof.
  intros (Hs & Hf & Hb). cbv zeta. unfold relay, Res.end_. rewrite Hs. cbn.
  rewrite Hf. cbn. by rewrite Hb.
Qed.

(** C7.  Take a request whose target resolves and is allowed, a response
    nothing has been written to, and an upstream that answers every request
    with a given status, header lines and body.  Then the exchange returns,
    the client's status is the upstream's (200 for the upstream of the
    claim) and the client's body is the upstream's body, unchanged. *)
Theorem body_relayed_unchanged (api : UrlApi) (ex : ExpressApi)
    (allow : option (list string))
    (setupOutgoing : Req.t -> string -> gmap string string)
    (redirect : Req.t -> string -> Z -> string -> option string)
    (upstream : Outgoing -> upstream_outcome)
    (req : Req.t) (res : Res.t) (t : URL)
    (status : Z) (raw : list (string * string)) (B : string) :
  untouched res ->
  parseTargetFromReq (Req.url req) "http://proxy.local" = Return (Some t) ->
  allowedHost allow (hostname t) = true ->
  (∀ out, upstream out =
          Responds {| ProxyRes.statusCode := status;
                      ProxyRes.headers := Node.incoming_headers raw;
                      ProxyRes.body := B |}) ->
  ∃ r, exchange allow setupOutgoing redirect upstream req res = Return r
       ∧ Res.statusCode r = status
       ∧ Res.body r = B
       ∧ Res.finished r = true.
Proof.
  intros Hres Hp Ha Hup. unfold exchange, proxy_route. rewrite Hp, Ha. cbn [negb].
  unfold proxy_web. rewrite Hup. cbn [ProxyRes.headers ProxyRes.statusCode ProxyRes.body].
  destruct (on_proxyRes_returns raw
              {| Req.url := pathname t +:+ search t +:+ hash t;
                 Req.headers := Req.headers req; Req.protocol := Req.protocol req;
                 Req._targetOrigin := Some (origin t);
                 Req._proto := Some (forwarded_proto req) |}) as [h ->].
  eexists. split; [reflexivity |]. apply relay_untouched.
  destruct Hres as (Hs & Hf & Hb). by repeat split.
Qed.

(** ** C4: resolution failures *)



(** ** C9: upgrades *)

Section Upgrade.
Context `{UrlApi} `{ExpressApi}.
Variable ALLOWLIST : option (list string).

(** The upgrade listener resolves and gates the target with the same calls
    as the /proxy route, and hands the same path and target on. *)
Lemma on_upgrade_cases (req : Req.t) :
  match parseTargetFromReq (Req.url req) "http://proxy.local" with
  | Throw => on_upgrade ALLOWLIST req = UpgradeThrew
  | Return None => on_upgrade ALLOWLIST req = SocketDestroyed
  | Return (Some t) =>
      if allowedHost ALLOWLIST (hostname t) then
        ∃ req1, on_upgrade ALLOWLIST req = ProxyWs req1 (origin t)
                ∧ Req.url req1 = pathname t +:+ search t +:+ hash t
                ∧ Req._targetOrigin req1 = Some (origin t)
      else on_upgrade ALLOWLIST req = SocketDestroyed
  end.
Proof.
  unfold on_upgrade.
  destruct (parseTargetFromReq _ _) as [[t|]|]; [| done | done].
  destruct (allowedHost ALLOWLIST (hostname t)); [| done]. cbn [negb]. by eexists.
Qed.

Lemma upgrade_matches_route (req : Req.t) (res : Res.t) :
  match on_upgrade ALLOWLIST req, proxy_route ALLOWLIST req res with
  | SocketDestroyed, Responded _ => True
  | ProxyWs req1 target1, ProxyWeb req2 _ target2 _ =>
      target1 = target2 ∧ Req.url req1 = Req.url req2
  | UpgradeThrew, RouteThrew => True
  | _, _ => False
  end.
Proof.
  unfold on_upgrade, proxy_route.
  destruct (parseTargetFromReq _ _) as [[t|]|]; [| done | done].
  by destruct (allowedHost ALLOWLIST (hostname t)).
Qed.

End Upgrade.

(** C9 at a request line the listener can receive: the request target //
    (an empty authority) makes the URL constructor throw outside any try
    block, so the listener throws and never destroys the socket; the
    simpler variant, whose listener body is wrapped in try and catch,
    destroys it. *)
Lemma upgrade_with_unparsable_request_url :
  let req := {| Req.url := "//"; Req.headers := ∅; Req.protocol := "http";
                Req._targetOrigin := None; Req._proto := None |} in
  Whatwg.new "//" (Some "http://proxy.local") = None
  ∧ @on_upgrade Whatwg.api None req = UpgradeThrew
  ∧ @Simple.on_upgrade Whatwg.api req = SocketDestroyed.
Proof. by vm_compute. Qed.

(** ** C2: cookie rewriting *)

(** C2 at two Set-Cookie values an upstream can send.  Only the first
    Domain attribute is replaced, so a second one keeps the upstream's
    host; and an attribute whose name merely starts with Secure stops the
    hook from adding Secure. *)
Lemma cookie_rewrite_misses :
  rewrite_cookie (Some "proxy.test") "sid=1; Domain=a.example; Domain=b.example"
  = "sid=1; Domain=proxy.test; Domain=b.example; SameSite=None; Secure"
  ∧ rewrite_cookie (Some "proxy.test") "sid=1; SecureToken=1"
    = "sid=1; SecureToken=1; SameSite=None".
Proof. by vm_compute. Qed.

(** ** The handlers on the reference URL class *)

Lemma whatwg_origin_truthy (u : Whatwg.url_record) :
  Js.truthy (Whatwg.get_origin u) = true.
Proof.
  unfold Whatwg.get_origin. destruct (Whatwg.is_special _); [| done].
  by destruct (Whatwg.scheme u).
Qed.


Lemma outbound_headers_normalised_witness :
  let req := demo_req "/?url=https://example.com/x" in
  let req1 := {| Req.url := "/x"; Req.headers := Req.headers req;
                 Req.protocol := "https";
                 Req._targetOrigin := Some "https://example.com";
                 Req._proto := Some "https" |} in
  let res1 := @Res.cookie Whatwg.express "last_target" "https://example.com"
                last_target_options demo_res in
  let sent := {[ "origin" := "https://client.test"; "user-agent" := "curl/8" ]} in
  (∀ u : Whatwg.url_record, Js.truthy (Whatwg.get_origin u) = true)
  ∧ @proxy_route Whatwg.api Whatwg.express None req demo_res
    = ProxyWeb req1 res1 "https://example.com" true
  ∧ on_proxyReq sent req1 !! "origin" = Some "https://example.com"
  ∧ on_proxyReq sent req1 !! "referer" = Some "https://example.com/"
  ∧ on_proxyReq sent req1 !! "user-agent" = Some USER_AGENT.
Proof.
  cbv zeta. split; [exact whatwg_origin_truthy |]. split; [by vm_compute |].
  refine (proj2 (outbound_headers_normalised Whatwg.api Whatwg.express None
            (demo_req "/?url=https://example.com/x") _ demo_res _ _ _ _
            whatwg_origin_truthy _)).
  by vm_compute.
Defined.

(** C6 as stated, at a request whose client sent an empty User-Agent:
    on the request the route dispatches, Referer is not the target's origin
    but that origin followed by a slash, and the client's User-Agent is
    replaced all the same. *)
Lemma outbound_headers_as_stated_fail :
  let req := {| Req.url := "/?url=https://example.com/x";
                Req.headers := {[ "host" := "proxy.test"; "user-agent" := "" ]};
                Req.protocol := "https";
                Req._targetOrigin := None;
                Req._proto := None |} in
  let sent := {[ "host" := "example.com"; "user-agent" := "" ]} in
  ∃ req1 res1,
    @proxy_route Whatwg.api Whatwg.express None req demo_res
    = ProxyWeb req1 res1 "https://example.com" true
    ∧ on_proxyReq sent req1 !! "referer" ≠ Some "https://example.com"
    ∧ on_proxyReq sent req1 !! "user-agent" ≠ sent !! "user-agent".
Proof.
  cbv zeta. eexists _, _. split; [by vm_compute |]. split; by vm_compute.
Qed.

Lemma last_target_cookie_set_witness :
  let req := demo_req "/?url=https://example.com/x" in
  let down := fun _ : Outgoing =>
                Fails {| message := Some "connect ECONNREFUSED"; detail := "" |} in
  let c := "last_target=https%3A%2F%2Fexample.com; Max-Age=1209600; Path=/; SameSite=Lax" in
  (∃ t, @parseTargetFromReq Whatwg.api (Req.url req) "http://proxy.local" = Return (Some t)
        ∧ allowedHost None (@hostname Whatwg.api t) = true)
  ∧ ∃ req1 res1 r,
      @proxy_route Whatwg.api Whatwg.express None req demo_res
      = ProxyWeb req1 res1 "https://example.com" true
      ∧ has_cookie res1 c
      ∧ @exchange Whatwg.api Whatwg.express None (fun r _ => Req.headers r)
          (fun _ _ _ _ => None) down req demo_res = Return r
      ∧ Res.statusCode r = 502
      ∧ has_cookie r c.
Proof.
  cbv zeta. split; [eexists; split; by vm_compute |].
  destruct (last_target_cookie_set Whatwg.api Whatwg.express None
              (fun r _ => Req.headers r) (fun _ _ _ _ => None)
              (fun _ : Outgoing =>
                 Fails {| message := Some "connect ECONNREFUSED"; detail := "" |})
              (demo_req "/?url=https://example.com/x") demo_res
              {| Whatwg.scheme := "https"; Whatwg.host := Some "example.com";
                 Whatwg.port := None; Whatwg.path := Whatwg.Segments ["x"];
                 Whatwg.query := None; Whatwg.fragment := None |}
              ltac:(by vm_compute) ltac:(by vm_compute))
    as (req1 & res1 & Hroute & Hc & Hfail).
  destruct (Hfail _ eq_refl eq_refl eq_refl) as (r & Hex & Hst & Hcr).
  exists req1, res1, r. by repeat split.
Defined.

Lemma body_relayed_unchanged_witness :
  let req := demo_req "/?url=https://example.com/x" in
  let page := "<!doctype html><title>x</title>" in
  let up := fun _ : Outgoing =>
              Responds {| ProxyRes.statusCode := 200;
                          ProxyRes.headers :=
                            Node.incoming_headers
                              [("Content-Type", "text/html");
                               ("Content-Security-Policy", "default-src 'self'");
                               ("Set-Cookie", "sid=1; Domain=example.com")];
                          ProxyRes.body := page |} in
  untouched demo_res
  ∧ ∃ r, @exchange Whatwg.api Whatwg.express None (fun r _ => Req.headers r)
           (fun _ _ _ _ => None) up req demo_res = Return r
         ∧ Res.statusCode r = 200
         ∧ Res.body r = page
         ∧ Res.finished r = true.
Proof.
  cbv zeta. split; [done |].
  apply (body_relayed_unchanged Whatwg.api Whatwg.express None
           (fun r _ => Req.headers r) (fun _ _ _ _ => None) _
           (demo_req "/?url=https://example.com/x") demo_res
           {| Whatwg.scheme := "https"; Whatwg.host := Some "example.com";
              Whatwg.port := None; Whatwg.path := Whatwg.Segments ["x"];
              Whatwg.query := None; Whatwg.fragment := None |}
           200
           [("Content-Type", "text/html");
            ("Content-Security-Policy", "default-src 'self'");
            ("Set-Cookie", "sid=1; Domain=example.com")]
           "<!doctype html><title>x</title>");
    [done | by vm_compute | by vm_compute | done].
Defined.

(** * Further properties of the handlers *)

(** [run]: a closed equation settled by evaluating its left side. *)
Ltac run :=
  lazymatch goal with
  | |- _ = ?r => vm_cast_no_check (@eq_refl _ r)
  end.

(** ** The redirect rewrite *)

Lemma decode_encode_step (c : ascii) (r : string) :
  Js.decodeURIComponent (Js.encodeURIComponent (String c r))
  = String c <$> Js.decodeURIComponent (Js.encodeURIComponent r).
Proof.
  cbn [Js.encodeURIComponent]. generalize (Js.encodeURIComponent r). intros R.
  destruct c as [[] [] [] [] [] [] [] []]; reflexivity.
Qed.

(** decodeURIComponent undoes encodeURIComponent. *)
Lemma decode_encode (s : string) :
  Js.decodeURIComponent (Js.encodeURIComponent s) = Some s.
Proof.
  induction s as [|c s IH]; [done |]. by rewrite decode_encode_step, IH.
Qed.

Section Redirects.
Context `{UrlApi}.

Lemma on_proxyRes_location (h h' : gmap string header_value) (req : Req.t) :
  on_proxyRes h req = Return h' ->
  h' !! "location"
  = rewrite_location req
      (delete "x-frame-options"
         (delete "content-security-policy-report-only"
            (delete "content-security-policy" h))) !! "location".
Proof.
  unfold on_proxyRes. cbv zeta.
  destruct (rewrite_location req _ !! "set-cookie") as [[s|l]|].
  - destruct (Js.truthy s); [done |]. by intros [= <-].
  - intros [= <-]. by rewrite lookup_insert_ne.
  - by intros [= <-].
Qed.

Lemma rewrite_location_lookup (req : Req.t) (h : gmap string header_value) :
  rewrite_location req h !! "location"
  = match h !! "location" with
    | Some loc =>
        if truthy_value loc then
          match URL_new (to_string loc) (resolution_base req) with
          | Some absolute =>
              Some (HStr ("/proxy?url=" +:+ Js.encodeURIComponent (href absolute)))
          | None => Some loc
          end
        else Some loc
    | None => None
    end.
Proof.
  unfold rewrite_location, resolution_base.
  destruct (h !! "location") as [loc|] eqn:Hl; [| done].
  destruct (truthy_value loc); [| done].
  destruct (URL_new _ _); [| done]. by rewrite lookup_insert_eq.
Qed.

Lemma stripped_location (h : gmap string header_value) :
  delete "x-frame-options"
    (delete "content-security-policy-report-only"
       (delete "content-security-policy" h)) !! "location" = h !! "location".
Proof. by rewrite !lookup_delete_ne. Qed.

End Redirects.

(** X1.  When the upstream's Location is a non-empty text that resolves
    against the stashed target origin, the hook replaces it by a path on
    the proxy's own /proxy route, and decoding the [url] parameter of that
    path gives back the serialised absolute URL, character for
    character. *)
Theorem location_rewrite_decodes (api : UrlApi) (req : Req.t)
    (h h' : gmap string header_value) (loc : string) (abs : URL) :
  on_proxyRes h req = Return h' ->
  h !! "location" = Some (HStr loc) ->
  loc ≠ "" ->
  URL_new loc (resolution_base req) = Some abs ->
  ∃ loc', h' !! "location" = Some (HStr loc')
          ∧ loc' = "/proxy?url=" +:+ Js.encodeURIComponent (href abs)
          ∧ extract_url_param loc' = Some (href abs).
Proof.
  intros Hr Hl Hne Habs. apply truthy_true in Hne.
  rewrite (on_proxyRes_location _ _ _ Hr), rewrite_location_lookup, stripped_location, Hl.
  cbn [truthy_value to_string]. rewrite Hne, Habs.
  eexists. split; [reflexivity |]. split; [reflexivity |].
  change ("/proxy?url=" +:+ Js.encodeURIComponent (href abs))
    with (String "/" (String "p" (String "r" (String "o" (String "x" (String "y"
           (String "?" (String "u" (String "r" (String "l" (String "="
              (Js.encodeURIComponent (href abs))))))))))))).
  cbn [extract_url_param]. apply decode_encode.
Qed.

Lemma location_rewrite_decodes_witness :
  let h := Node.incoming_headers [("Location", "/login?next=%2Fa b")] in
  let h' := {[ "location" :=
                 HStr "/proxy?url=https%3A%2F%2Fup.example%2Flogin%3Fnext%3D%252Fa%2520b" ]} in
  let abs := {| Whatwg.scheme := "https"; Whatwg.host := Some "up.example";
                Whatwg.port := None; Whatwg.path := Whatwg.Segments ["login"];
                Whatwg.query := Some "next=%2Fa%20b"; Whatwg.fragment := None |} in
  @on_proxyRes Whatwg.api h demo_dispatched = Return h'
  ∧ h !! "location" = Some (HStr "/login?next=%2Fa b")
  ∧ @URL_new Whatwg.api "/login?next=%2Fa b" (resolution_base demo_dispatched) = Some abs
  ∧ extract_url_param "/proxy?url=https%3A%2F%2Fup.example%2Flogin%3Fnext%3D%252Fa%2520b"
    = Some "https://up.example/login?next=%2Fa%20b".
Proof.
  cbv zeta. split; [run |]. split; [run |]. split; [run |].
  destruct (location_rewrite_decodes Whatwg.api demo_dispatched
              (Node.incoming_headers [("Location", "/login?next=%2Fa b")])
              {[ "location" :=
                   HStr "/proxy?url=https%3A%2F%2Fup.example%2Flogin%3Fnext%3D%252Fa%2520b" ]}
              "/login?next=%2Fa b"
              {| Whatwg.scheme := "https"; Whatwg.host := Some "up.example";
                 Whatwg.port := None; Whatwg.path := Whatwg.Segments ["login"];
                 Whatwg.query := Some "next=%2Fa%20b"; Whatwg.fragment := None |}
              ltac:(run) ltac:(run) ltac:(done) ltac:(run))
    as (loc' & Hl & -> & Hx).
  exact Hx.
Defined.

(** X2.  The proxyRes hook touches five headers and nothing else: every
    header other than the three it strips, Location and Set-Cookie is
    handed on as it came.  Location itself is handed on as it came when it
    is absent, empty, or does not resolve against the stashed origin. *)
Theorem proxyRes_hook_frame (api : UrlApi) (req : Req.t)
    (h h' : gmap string header_value) :
  on_proxyRes h req = Return h' ->
  (∀ k, k ∉ blocking_headers -> k ≠ "location" -> k ≠ "set-cookie" ->
        h' !! k = h !! k)
  ∧ (∀ v, h !! "location" = Some v ->
          truthy_value v = false
          ∨ URL_new (to_string v) (resolution_base req) = None ->
          h' !! "location" = Some v)
  ∧ (h !! "location" = None -> h' !! "location" = None).
Proof.
  intros Hr. split; [| split].
  - intros k Hb Hl Hc.
    assert (k ≠ "content-security-policy" ∧ k ≠ "content-security-policy-report-only"
            ∧ k ≠ "x-frame-options") as (H1 & H2 & H3).
    { unfold blocking_headers in Hb. rewrite !not_elem_of_cons in Hb. tauto. }
    unfold on_proxyRes in Hr. cbv zeta in Hr.
    destruct (rewrite_location req _ !! "set-cookie") as [[s|l]|];
      [destruct (Js.truthy s); [done |] | |]; injection Hr as <-;
      rewrite ?lookup_insert_ne by done;
      by rewrite rewrite_location_other, !lookup_delete_ne.
  - intros v Hv Hcase.
    rewrite (on_proxyRes_location _ _ _ Hr), rewrite_location_lookup, stripped_location, Hv.
    destruct Hcase as [-> | ->]; [done |]. by destruct (truthy_value v).
  - intros Hv.
    by rewrite (on_proxyRes_location _ _ _ Hr), rewrite_location_lookup, stripped_location, Hv.
Qed.

Lemma proxyRes_hook_frame_witness :
  let h := Node.incoming_headers
             [("Content-Type", "text/html"); ("X-Frame-Options", "DENY");
              ("Location", ""); ("ETag", "abc")] in
  let h' := {[ "content-type" := HStr "text/html"; "location" := HStr "";
               "etag" := HStr "abc" ]} in
  @on_proxyRes Whatwg.api h demo_dispatched = Return h'
  ∧ h' !! "etag" = h !! "etag"
  ∧ h' !! "location" = Some (HStr "").
Proof.
  cbv zeta.
  pose proof (proxyRes_hook_frame Whatwg.api demo_dispatched
                (Node.incoming_headers
                   [("Content-Type", "text/html"); ("X-Frame-Options", "DENY");
                    ("Location", ""); ("ETag", "abc")])
                {[ "content-type" := HStr "text/html"; "location" := HStr "";
                   "etag" := HStr "abc" ]}
                ltac:(run)) as (Hframe & Hloc & _).
  split; [run |]. split.
  - apply Hframe; [| done | done]. unfold blocking_headers.
    rewrite !not_elem_of_cons. repeat split; [done | done | done |]. apply not_elem_of_nil.
  - apply Hloc; [run |]. by left.
Defined.

(** ** The cookie rewrite *)

Lemma span_no_semi_app (s a b : string) :
  Js.span_no_semi s = (a, b) -> s = a +:+ b.
Proof.
  revert a b. induction s as [|c s IH]; intros a b; cbn [Js.span_no_semi].
  - by intros [= <- <-].
  - destruct (ascii_dec c ";") as [->|Hc]; [by intros [= <- <-] |].
    destruct (Js.span_no_semi s) as [a' b']. intros [= <- <-].
    by rewrite app_cons, <- (IH a' b').
Qed.

(** The cookie pair of a text that goes on with a semicolon. *)
Lemma cookie_pair_app_semi (a r : string) :
  cookie_pair (a +:+ String ";" r) = cookie_pair a.
Proof.
  unfold cookie_pair. induction a as [|c a IH].
  - rewrite app_nil_l. cbn [Js.span_no_semi]. by destruct (ascii_dec ";" ";").
  - rewrite app_cons. cbn [Js.span_no_semi].
    destruct (ascii_dec c ";"); [done |].
    destruct (Js.span_no_semi (a +:+ String ";" r)) as [x y].
    destruct (Js.span_no_semi a) as [x' y']. cbn [fst] in *. by rewrite IH.
Qed.

Lemma eat_ci_suffix (lit s r : string) :
  Js.eat_ci lit s = Some r -> ∃ x, s = x +:+ r ∧ String.length x = String.length lit.
Proof.
  revert s. induction lit as [|a lit IH]; intros s; cbn [Js.eat_ci].
  - intros [= <-]. by exists "".
  - destruct s as [|b s]; [done |].
    destruct (ascii_dec a (Js.lower b)); [| done].
    intros (x & -> & Hx)%IH. exists (String b x). cbn [String.length]. by rewrite Hx.
Qed.

Lemma skip_space_suffix (s : string) : ∃ x, s = x +:+ Js.skip_space s.
Proof.
  induction s as [|c s [x IH]]; [by exists "" |]. cbn [Js.skip_space].
  destruct (Js.is_space c); [| by exists ""].
  exists (String c x). by rewrite app_cons, <- IH.
Qed.

Lemma substring_prefix (x a : string) :
  substring 0 (String.length (x +:+ a) - String.length a) (x +:+ a) = x.
Proof.
  rewrite length_append. replace (_ + _ - _)%nat with (String.length x) by lia.
  induction x as [|c x IH]; [by destruct a |].
  rewrite app_cons. cbn [String.length substring]. by rewrite IH.
Qed.

(** What exec returns: the three parts make up the text, and the match
    starts with the semicolon. *)
Lemma domain_exec_parts (s b m a : string) :
  Js.domain_exec s = Some (b, m, a) ->
  s = b +:+ m +:+ a ∧ ∃ m', m = String ";" m'.
Proof.
  revert b. induction s as [|c s IH]; intros b.
  - cbn [Js.domain_exec Js.attr_here]. done.
  - cbn [Js.domain_exec]. destruct (Js.attr_here "domain=" (String c s)) as [r|] eqn:Hh.
    + intros Heq. clear IH. cbn [Js.attr_here] in Hh.
      destruct (ascii_dec c ";") as [->|]; [| done].
      destruct (eat_ci_suffix _ _ _ Hh) as (x1 & Hx1 & _).
      destruct (skip_space_suffix s) as (x0 & Hx0).
      destruct (Js.span_no_semi r) as [v after] eqn:Hsp.
      apply span_no_semi_app in Hsp. cbn [snd] in Heq.
      assert (String ";" s = String ";" (x0 +:+ x1 +:+ v) +:+ after) as E.
      { rewrite app_cons. f_equal. rewrite Hx0 at 1. rewrite Hx1, Hsp.
        by rewrite !append_assoc. }
      pose proof (substring_prefix (String ";" (x0 +:+ x1 +:+ v)) after) as Hsub.
      rewrite <- E in Hsub. rewrite Hsub in Heq.
      injection Heq as <- <- <-. split; [done |]. by eexists.
    + destruct (Js.domain_exec s) as [[[b' m'] a']|]; [| done].
      intros [= <- <- <-]. destruct (IH b' eq_refl) as (-> & Hm).
      split; [| done]. by rewrite app_cons.
Qed.

Lemma substitution_semi (m b a t : string) :
  Js.substitution m b a (String ";" t) = String ";" (Js.substitution m b a t).
Proof. cbn [Js.substitution]. by destruct (ascii_dec ";" "$"). Qed.

Lemma cookie_pair_replace_domain (c t : string) :
  cookie_pair (Js.replace_domain c (String ";" t)) = cookie_pair c.
Proof.
  unfold Js.replace_domain.
  destruct (Js.domain_exec c) as [[[b m] a]|] eqn:He; [| done].
  destruct (domain_exec_parts _ _ _ _ He) as (-> & m' & ->).
  rewrite substitution_semi, !app_cons. by rewrite !cookie_pair_app_semi.
Qed.

(** X3.  Whatever the request's Host header and whatever the cookie, the
    rewrite leaves the cookie pair, the text up to the first semicolon
    that holds name and value, exactly as the upstream sent it. *)
Theorem cookie_pair_preserved (host : option string) (c : string) :
  cookie_pair (rewrite_cookie host c) = cookie_pair c.
Proof.
  unfold rewrite_cookie. cbv zeta.
  set (c1 := Js.replace_domain c _).
  assert (cookie_pair c1 = cookie_pair c) as H1.
  { subst c1. change ("; Domain=" +:+ Js.template host)
      with (String ";" (" Domain=" +:+ Js.template host)).
    apply cookie_pair_replace_domain. }
  set (c2 := if negb (Js.attr_test "samesite=" c1) then _ else c1).
  assert (cookie_pair c2 = cookie_pair c) as H2.
  { subst c2. destruct (negb (Js.attr_test "samesite=" c1)); [| exact H1].
    change "; SameSite=None" with (String ";" " SameSite=None").
    by rewrite cookie_pair_app_semi. }
  destruct (negb (Js.attr_test "secure" c2)); [| exact H2].
  change "; Secure" with (String ";" " Secure"). by rewrite cookie_pair_app_semi.
Qed.

Lemma attr_test_suffix (lit x y : string) :
  Js.attr_test lit y = true -> Js.attr_test lit (x +:+ y) = true.
Proof.
  intros Hy. induction x as [|c x IH]; [done |].
  rewrite app_cons. cbn [Js.attr_test]. rewrite IH. by destruct (Js.attr_here _ _).
Qed.

Lemma eat_ci_app (lit s r y : string) :
  Js.eat_ci lit s = Some r -> Js.eat_ci lit (s +:+ y) = Some (r +:+ y).
Proof.
  revert s. induction lit as [|a lit IH]; intros s; cbn [Js.eat_ci].
  - by intros [= <-].
  - destruct s as [|b s]; [done |]. rewrite app_cons.
    destruct (ascii_dec a (Js.lower b)); [| done]. apply IH.
Qed.

Lemma skip_space_app (s y : string) :
  Js.skip_space s ≠ "" -> Js.skip_space (s +:+ y) = Js.skip_space s +:+ y.
Proof.
  induction s as [|c s IH]; [done |]. rewrite app_cons. cbn [Js.skip_space].
  destruct (Js.is_space c); [apply IH | by rewrite app_cons].
Qed.

Lemma attr_here_app (a : ascii) (lit s r y : string) :
  Js.attr_here (String a lit) s = Some r ->
  Js.attr_here (String a lit) (s +:+ y) = Some (r +:+ y).
Proof.
  destruct s as [|c s]; [done |]. rewrite app_cons. cbn [Js.attr_here].
  destruct (ascii_dec c ";"); [| done]. intros He.
  rewrite skip_space_app; [by apply eat_ci_app |].
  intros E. rewrite E in He. done.
Qed.

Lemma attr_test_prefix (a : ascii) (lit x y : string) :
  Js.attr_test (String a lit) x = true -> Js.attr_test (String a lit) (x +:+ y) = true.
Proof.
  induction x as [|c x IH]; [done |].
  change (Js.attr_test (String a lit) (String c x))
    with (match Js.attr_here (String a lit) (String c x) with
          | Some _ => true
          | None => Js.attr_test (String a lit) x
          end).
  rewrite app_cons.
  change (Js.attr_test (String a lit) (String c (x +:+ y)))
    with (match Js.attr_here (String a lit) (String c (x +:+ y)) with
          | Some _ => true
          | None => Js.attr_test (String a lit) (x +:+ y)
          end).
  rewrite <- app_cons.
  destruct (Js.attr_here (String a lit) (String c x)) as [r|] eqn:Hh.
  - intros _. by rewrite (attr_here_app _ _ _ _ y Hh).
  - intros Hx. rewrite (IH Hx).
    by destruct (Js.attr_here (String a lit) (String c x +:+ y)).
Qed.

(** X4.  After the rewrite a cookie always passes the hook's own two
    tests, for an attribute that starts [SameSite=] and for one that
    starts [Secure] (in any letter case, after a semicolon and optional
    blanks). *)
Theorem cookie_tests_pass (host : option string) (c : string) :
  Js.attr_test "samesite=" (rewrite_cookie host c) = true
  ∧ Js.attr_test "secure" (rewrite_cookie host c) = true.
Proof.
  unfold rewrite_cookie. cbv zeta.
  set (c1 := Js.replace_domain c _).
  set (c2 := if negb (Js.attr_test "samesite=" c1) then _ else c1).
  assert (Js.attr_test "samesite=" c2 = true) as H2.
  { subst c2. destruct (Js.attr_test "samesite=" c1) eqn:E; [done |].
    cbn [negb]. by apply attr_test_suffix. }
  destruct (Js.attr_test "secure" c2) eqn:E; cbn [negb]; [done |].
  split; [by apply attr_test_prefix | by apply attr_test_suffix].
Qed.

Lemma substitution_plain (m b a t : string) :
  lacks "$" t = true -> Js.substitution m b a t = t.
Proof.
  induction t as [|c t IH]; [done |]. cbn [lacks Js.substitution].
  destruct (ascii_dec c "$"); [done |]. intros Ht. by rewrite IH.
Qed.

Lemma span_no_semi_lacks (v a : string) :
  lacks ";" v = true -> (a = "" ∨ ∃ a', a = String ";" a') ->
  Js.span_no_semi (v +:+ a) = (v, a).
Proof.
  intros Hv Ha. induction v as [|c v IH].
  - rewrite app_nil_l. destruct Ha as [-> | [a' ->]]; [done |].
    cbn [Js.span_no_semi]. by destruct (ascii_dec ";" ";").
  - rewrite app_cons. cbn [lacks] in Hv. cbn [Js.span_no_semi].
    destruct (ascii_dec c ";"); [done |]. by rewrite (IH Hv).
Qed.

Lemma skip_space_blank (ws s : string) :
  blank ws = true -> Js.skip_space (ws +:+ s) = Js.skip_space s.
Proof.
  induction ws as [|c ws IH]; [done |]. cbn [blank]. rewrite app_cons.
  intros [Hc Hw]%andb_true_iff. cbn [Js.skip_space]. rewrite Hc. by apply IH.
Qed.

Lemma domain_exec_lacks (nv s b m a : string) :
  lacks ";" nv = true -> Js.domain_exec s = Some (b, m, a) ->
  Js.domain_exec (nv +:+ s) = Some (nv +:+ b, m, a).
Proof.
  intros Hnv Hs. induction nv as [|c nv IH]; [by rewrite !app_nil_l |].
  cbn [lacks] in Hnv. destruct (ascii_dec c ";") as [|Hc]; [done |].
  rewrite !app_cons.
  change (Js.domain_exec (String c (nv +:+ s)))
    with (match Js.attr_here "domain=" (String c (nv +:+ s)) with
          | Some r =>
              let after := (Js.span_no_semi r).2 in
              Some (EmptyString,
                    substring 0 (String.length (String c (nv +:+ s)) - String.length after)
                      (String c (nv +:+ s)), after)
          | None => match Js.domain_exec (nv +:+ s) with
                    | Some (b, m, a) => Some (String c b, m, a)
                    | None => None
                    end
          end).
  cbn [Js.attr_here]. destruct (ascii_dec c ";"); [done |]. by rewrite (IH Hnv).
Qed.

Lemma domain_exec_here (ws v a : string) :
  blank ws = true -> lacks ";" v = true -> (a = "" ∨ ∃ a', a = String ";" a') ->
  Js.domain_exec (";" +:+ ws +:+ "Domain=" +:+ v +:+ a)
  = Some ("", ";" +:+ ws +:+ "Domain=" +:+ v, a).
Proof.
  intros Hws Hv Ha.
  set (s := ";" +:+ ws +:+ "Domain=" +:+ v +:+ a).
  assert (Js.attr_here "domain=" s = Some (v +:+ a)) as Hh.
  { subst s. rewrite app_cons, app_nil_l. cbn [Js.attr_here].
    destruct (ascii_dec ";" ";"); [| done]. rewrite (skip_space_blank _ _ Hws).
    rewrite !app_cons, app_nil_l. cbn [Js.skip_space].
    change (Js.is_space "D") with false. cbv iota.
    by vm_compute (Js.lower _); repeat (cbn [Js.eat_ci]; destruct (ascii_dec _ _); [| done]). }
  assert (s = (";" +:+ ws +:+ "Domain=" +:+ v) +:+ a) as Hs.
  { subst s. by rewrite !append_assoc. }
  destruct s as [|c s'] eqn:Es; [done |].
  change (Js.domain_exec (String c s'))
    with (match Js.attr_here "domain=" (String c s') with
          | Some r =>
              let after := (Js.span_no_semi r).2 in
              Some (EmptyString,
                    substring 0 (String.length (String c s') - String.length after)
                      (String c s'), after)
          | None => match Js.domain_exec s' with
                    | Some (b, m, a) => Some (String c b, m, a)
                    | None => None
                    end
          end).
  rewrite Hh. cbv zeta. rewrite (span_no_semi_lacks _ _ Hv Ha). cbn [snd].
  rewrite Hs. by rewrite substring_prefix.
Qed.

Lemma replace_domain_first (t nv ws v a : string) :
  lacks ";" nv = true -> blank ws = true -> lacks ";" v = true ->
  (a = "" ∨ ∃ a', a = String ";" a') -> lacks "$" t = true ->
  Js.replace_domain (nv +:+ ";" +:+ ws +:+ "Domain=" +:+ v +:+ a) t = nv +:+ t +:+ a.
Proof.
  intros Hnv Hws Hv Ha Ht. unfold Js.replace_domain.
  rewrite (domain_exec_lacks nv _ _ _ _ Hnv (domain_exec_here ws v a Hws Hv Ha)).
  by rewrite (substitution_plain _ _ _ _ Ht), append_nil_r.
Qed.

(** X5.  A cookie whose first attribute is a Domain has it replaced by
    the request's Host: for a pair without semicolon, blanks [ws] after
    the semicolon, a Domain value [v] and further attributes [a], the
    rewritten cookie is the pair, [; Domain=] with the Host header as a
    template literal prints it, the further attributes, and at most the
    two appended attributes.  The Host must hold no dollar sign, which
    String.prototype.replace would read as a substitution pattern. *)
Theorem cookie_domain_replaced (host : option string) (nv ws v a : string) :
  lacks ";" nv = true -> blank ws = true -> lacks ";" v = true ->
  (a = "" ∨ ∃ a', a = String ";" a') ->
  lacks "$" (Js.template host) = true ->
  ∃ tail, tail ∈ appended_attributes
    ∧ rewrite_cookie host (nv +:+ ";" +:+ ws +:+ "Domain=" +:+ v +:+ a)
      = nv +:+ "; Domain=" +:+ Js.template host +:+ a +:+ tail.
Proof.
  intros Hnv Hws Hv Ha Ht. unfold rewrite_cookie. cbv zeta.
  rewrite (replace_domain_first _ nv ws v a Hnv Hws Hv Ha) by done.
  set (t := Js.template host).
  assert (∀ x, (nv +:+ ("; Domain=" +:+ t) +:+ a) +:+ x
               = nv +:+ "; Domain=" +:+ t +:+ a +:+ x) as Hx.
  { intros x. by rewrite !append_assoc. }
  set (c1 := nv +:+ ("; Domain=" +:+ t) +:+ a) in *.
  unfold appended_attributes.
  destruct (negb (Js.attr_test "samesite=" c1)).
  - destruct (negb (Js.attr_test "secure" (c1 +:+ "; SameSite=None"))).
    + exists "; SameSite=None; Secure". split; [by repeat constructor |].
      by rewrite append_assoc, Hx.
    + exists "; SameSite=None". split; [by repeat constructor | by rewrite Hx].
  - destruct (negb (Js.attr_test "secure" c1)).
    + exists "; Secure". split; [by repeat constructor | by rewrite Hx].
    + exists "". split; [by repeat constructor | by rewrite <- Hx, append_nil_r].
Qed.

Lemma cookie_domain_replaced_witness :
  ∃ tail, tail ∈ appended_attributes
    ∧ rewrite_cookie (Some "proxy.test") ("sid=1" +:+ ";" +:+ " " +:+ "Domain=" +:+ "up.example" +:+ "; Path=/")
      = "sid=1" +:+ "; Domain=" +:+ Js.template (Some "proxy.test") +:+ "; Path=/" +:+ tail.
Proof.
  apply (cookie_domain_replaced (Some "proxy.test") "sid=1" " " "up.example" "; Path=/");
    first [reflexivity | right; by eexists].
Defined.

(** ** The proxyReq hook *)

Lemma on_proxyReq_other (p : gmap string string) (req : Req.t) (k : string) :
  k ∉ normalised_headers -> on_proxyReq p req !! k = p !! k.
Proof.
  unfold normalised_headers. rewrite !not_elem_of_cons. intros (Ho & Hr & Hu & _).
  unfold on_proxyReq.
  destruct (Req._targetOrigin req) as [o|]; [| done].
  destruct (Js.truthy o); [| done]. cbv zeta.
  destruct (Req.headers req !! "user-agent") as [ua|]; [destruct (Js.truthy ua) |];
    by rewrite ?lookup_insert_ne.
Qed.

(** X6.  The proxyReq hook writes Origin, Referer and User-Agent only:
    every other header of the request sent upstream is as http-proxy
    prepared it.  On a request without a stashed target origin the hook
    changes nothing, and running it twice is the same as running it
    once. *)
Theorem proxyReq_hook_frame (p : gmap string string) (req : Req.t) :
  (∀ k, k ∉ normalised_headers -> on_proxyReq p req !! k = p !! k)
  ∧ (resolution_base req = None -> on_proxyReq p req = p)
  ∧ on_proxyReq (on_proxyReq p req) req = on_proxyReq p req.
Proof.
  split; [apply on_proxyReq_other |]. unfold resolution_base, on_proxyReq.
  destruct (Req._targetOrigin req) as [o|]; [| done].
  destruct (Js.truthy o); [| done]. split; [done |]. cbv zeta.
  destruct (Req.headers req !! "user-agent") as [ua|]; [destruct (Js.truthy ua) |];
    apply map_eq; intros k.
  all: destruct (decide (k = "user-agent")) as [E1|];
    destruct (decide (k = "referer")) as [E2|];
    destruct (decide (k = "origin")) as [E3|]; by simplify_map_eq.
Qed.

(** ** The route and the upgrade listener *)


(** X8.  With the allowlist as shipped ([null]) no host is refused: the
    /proxy route answers by itself only with 400, and only when no target
    resolves; the upgrade listener destroys the socket only then. *)
Theorem shipped_allowlist_open (api : UrlApi) (ex : ExpressApi)
    (req : Req.t) (res : Res.t) :
  (∀ hostname, allowedHost None hostname = true)
  ∧ (∀ r, proxy_route None req res = Responded r ->
          Res.statusCode r = 400
          ∧ parseTargetFromReq (Req.url req) "http://proxy.local" = Return None)
  ∧ (on_upgrade None req = SocketDestroyed ->
     parseTargetFromReq (Req.url req) "http://proxy.local" = Return None).
Proof.
  split; [done |]. unfold proxy_route, on_upgrade, allowedHost.
  destruct (parseTargetFromReq _ _) as [[t|]|]; cbn [negb]; split; try done.
  intros r [= <-]. split; [apply statusCode_send | done].
Qed.

(** ** Cookies over a whole exchange *)

Section Cookies.
Context `{UrlApi} `{ExpressApi}.
Variable setupOutgoing : Req.t -> string -> gmap string string.
Variable setRedirectHostRewrite : Req.t -> string -> Z -> string -> option string.
Variable upstream : Outgoing -> upstream_outcome.

Lemma on_proxyRes_set_cookie (h : gmap string header_value) (req : Req.t) :
  match h !! "set-cookie" with
  | Some (HArr l) =>
      ∃ h', on_proxyRes h req = Return h'
            ∧ h' !! "set-cookie"
              = Some (HArr (map (rewrite_cookie (Req.headers req !! "host")) l))
  | Some (HStr s) => True
  | None => ∃ h', on_proxyRes h req = Return h' ∧ h' !! "set-cookie" = None
  end.
Proof.
  unfold on_proxyRes. cbv zeta.
  rewrite rewrite_location_other, !lookup_delete_ne by done.
  destruct (h !! "set-cookie") as [[s|l]|] eqn:Hc; [done | |].
  - eexists. split; [done |]. by rewrite lookup_insert_eq.
  - eexists. split; [done |]. by rewrite rewrite_location_other, !lookup_delete_ne.
Qed.

Lemma proxy_web_set_cookie (req : Req.t) (res : Res.t) (target : string)
    (autoRewrite : bool) (proxyRes : ProxyRes.t) (h : gmap string header_value) :
  Res.headersSent res = false ->
  upstream (outgoing setupOutgoing req target) = Responds proxyRes ->
  on_proxyRes (ProxyRes.headers proxyRes) req = Return h ->
  ∃ r, proxy_web setupOutgoing setRedirectHostRewrite upstream req res target autoRewrite
       = Return r
       ∧ Res.headers r !! "set-cookie"
         = (h ∪ Res.headers res) !! "set-cookie".
Proof.
  intros Hs Hup Hh. unfold proxy_web. rewrite Hup, Hh. eexists. split; [done |].
  unfold relay. rewrite Hs, headers_end. cbn [Res.headers].
  destruct (h !! "location") as [loc|]; [| done].
  destruct (autoRewrite && truthy_value loc); [| done].
  destruct (setRedirectHostRewrite _ _ _ _); [| done].
  rewrite !lookup_union. by rewrite lookup_insert_ne.
Qed.

End Cookies.

(** X9.  Over a whole exchange whose upstream answers: when the upstream
    sends Set-Cookie lines, the client's Set-Cookie header holds exactly
    those lines after the rewrite, in order, and the route's own
    last_target cookie is replaced by them; when the upstream sends none,
    the client's Set-Cookie header is the one the route left, with the
    last_target cookie. *)
Theorem upstream_cookies_replace_own (api : UrlApi) (ex : ExpressApi)
    (allow : option (list string))
    (setupOutgoing : Req.t -> string -> gmap string string)
    (redirect : Req.t -> string -> Z -> string -> option string)
    (upstream : Outgoing -> upstream_outcome)
    (req : Req.t) (res : Res.t) (t : URL) (proxyRes : ProxyRes.t) :
  Res.headersSent res = false ->
  parseTargetFromReq (Req.url req) "http://proxy.local" = Return (Some t) ->
  allowedHost allow (hostname t) = true ->
  (∀ out, upstream out = Responds proxyRes) ->
  (∀ l, ProxyRes.headers proxyRes !! "set-cookie" = Some (HArr l) ->
        ∃ r, exchange allow setupOutgoing redirect upstream req res = Return r
             ∧ Res.headers r !! "set-cookie"
               = Some (HArr (map (rewrite_cookie (Req.headers req !! "host")) l)))
  ∧ (ProxyRes.headers proxyRes !! "set-cookie" = None ->
     ∃ r, exchange allow setupOutgoing redirect upstream req res = Return r
          ∧ Res.headers r !! "set-cookie"
            = Res.headers (Res.cookie "last_target" (origin t) last_target_options res)
                !! "set-cookie"
          ∧ has_cookie r (cookie_serialize "last_target" (origin t) last_target_options)).
Proof.
  intros Hs Hp Ha Hup. unfold exchange, proxy_route. rewrite Hp, Ha. cbn [negb].
  set (req1 := {| Req.url := _ |}).
  set (res1 := Res.cookie _ _ _ res).
  pose proof (on_proxyRes_set_cookie (ProxyRes.headers proxyRes) req1) as Hc.
  split.
  - intros l Hl. rewrite Hl in Hc. destruct Hc as (h & Hh & Hhc).
    destruct (proxy_web_set_cookie setupOutgoing redirect upstream req1 res1
                (origin t) true proxyRes h Hs (Hup _) Hh) as (r & Hr & Hrc).
    exists r. split; [done |]. rewrite Hrc. by apply lookup_union_Some_l.
  - intros Hn. rewrite Hn in Hc. destruct Hc as (h & Hh & Hhc).
    destruct (proxy_web_set_cookie setupOutgoing redirect upstream req1 res1
                (origin t) true proxyRes h Hs (Hup _) Hh) as (r & Hr & Hrc).
    exists r. split; [done |].
    assert (Res.headers r !! "set-cookie" = Res.headers res1 !! "set-cookie") as E.
    { rewrite Hrc, lookup_union, Hhc. by destruct (Res.headers res1 !! "set-cookie"). }
    split; [done |]. unfold has_cookie. rewrite E.
    apply (has_cookie_append _ res).
Qed.

Lemma upstream_cookies_replace_own_witness :
  let proxyRes := {| ProxyRes.statusCode := 200;
                     ProxyRes.headers := {[ "set-cookie" := HArr ["sid=1; Domain=up.example"] ]};
                     ProxyRes.body := "ok" |} in
  let req := demo_req "/?url=https://up.example/a" in
  ∃ r, @exchange Whatwg.api Whatwg.express None (fun _ _ => ∅) (fun _ _ _ _ => None)
         (fun _ => Responds proxyRes) req demo_res = Return r
       ∧ Res.headers r !! "set-cookie"
         = Some (HArr (map (rewrite_cookie (Req.headers req !! "host"))
                         ["sid=1; Domain=up.example"])).
Proof.
  cbv zeta.
  refine (proj1 (upstream_cookies_replace_own Whatwg.api Whatwg.express None
            (fun _ _ => ∅) (fun _ _ _ _ => None) (fun _ => Responds _)
            (demo_req "/?url=https://up.example/a") demo_res
            {| Whatwg.scheme := "https"; Whatwg.host := Some "up.example";
               Whatwg.port := None; Whatwg.path := Whatwg.Segments ["a"];
               Whatwg.query := None; Whatwg.fragment := None |} _
            eq_refl ltac:(run) eq_refl (fun _ => eq_refl))
            ["sid=1; Domain=up.example"] ltac:(run)).
Defined.

(** ** The /go routes *)

Lemma split_cons (s : string) : ∃ x r, JsArray.split s = x :: r.
Proof.
  destruct s as [|c s]; [by eexists _, _ |]. cbn [JsArray.split].
  destruct (ascii_dec c ","); [by eexists _, _ |].
  destruct (JsArray.split s); by eexists _, _.
Qed.











Lemma strip_prefix_app (p s : string) : strip_prefix p (p +:+ s) = Some s.
Proof.
  induction p as [|c p IH]; [done |]. rewrite app_cons. cbn [strip_prefix].
  by destruct (ascii_dec c c).
Qed.

(** X10.  The /go route of index.js never throws and answers with one of
    two redirects.  Without a usable [u] (absent, empty, or refused by the
    URL constructor), or with a recent_targets cookie that is no string,
    it redirects to [/] and leaves the response as it was, without a
    cookie of its own.  Otherwise it sets the recent_targets cookie, for
    thirty days, and redirects to the /proxy route with a [url] parameter
    that decodes to the serialised URL. *)
Theorem go_route_outcomes (api : UrlApi) (ex : ExpressApi)
    (u : option query_value) (recent : option cookie_value) (res : Res.t) :
  (go_target u = None ∨ recent = Some CJson ->
   go_route u recent res = GoRedirect "/" res)
  ∧ (∀ abs cur, go_target u = Some abs -> current_targets recent = Some cur ->
       ∃ address v,
         go_route u recent res
         = GoRedirect address (Res.cookie "recent_targets" v recent_targets_options res)
         ∧ extract_url_param address = Some (href abs)
         ∧ has_cookie (Res.cookie "recent_targets" v recent_targets_options res)
             (cookie_serialize "recent_targets" v
                {| httpOnly := false; sameSite := "Lax";
                   maxAge := 30 * (24 * 60 * 60 * 1000) |})).
Proof.
  unfold go_target, go_route. split.
  - destruct u as [q|]; [| done]. destruct (query_truthy q); cbn [negb]; [| done].
    destruct (URL_new (query_text q) None) as [abs|]; [| done].
    intros [Hn | ->]; done.
  - intros abs cur Hu Hc. destruct u as [q|]; [| done].
    destruct (query_truthy q); cbn [negb]; [| done].
    rewrite Hu, Hc. cbv zeta. eexists _, _. split; [reflexivity |].
    split; [apply decode_encode | apply has_cookie_append].
Qed.



(** X12.  The /go route of the simpler variant checks nothing but that
    [u] is there: every non-empty text, a URL or not, is stored as the
    first of the recent targets unless already listed, and the client is
    redirected to the /proxy route with a [target] parameter that decodes
    to that very text.  A recent_targets cookie that is no string makes
    the handler throw, where the route of index.js redirects to [/]. *)
Theorem simple_go_route_unchecked (api : UrlApi) (ex : ExpressApi)
    (s : string) (recent : option cookie_value) (res : Res.t) :
  s ≠ "" ->
  match current_targets recent with
  | Some cur =>
      ∃ address kept,
        simple_go_route (Some (QStr s)) recent res
        = GoRedirect address
            (Res.cookie "recent_targets" (JsArray.join kept) recent_targets_options res)
        ∧ extract_target_param address = Some s
        ∧ (s ∉ cur -> ∃ r, kept = s :: r)
        ∧ (s ∈ cur -> kept = take 8 cur)
  | None =>
      simple_go_route (Some (QStr s)) recent res = GoThrew
      ∧ go_route (Some (QStr s)) recent res = GoRedirect "/" res
  end.
Proof.
  intros Hs%truthy_true. unfold simple_go_route, go_route. cbn [query_truthy query_text].
  rewrite Hs. cbn [negb].
  destruct (current_targets recent) as [cur|]; [| by destruct (URL_new s None)].
  cbv zeta. eexists _, _. split; [reflexivity |].
  split; [unfold extract_target_param; by rewrite strip_prefix_app, decode_encode |].
  unfold next_targets, JsArray.includes. case_bool_decide; cbn [negb take].
  - split; [done | by intros _].
  - split; [by eexists | done].
Qed.

Lemma simple_go_route_unchecked_witness :
  ∃ address kept,
    @simple_go_route Whatwg.express (Some (QStr "not a url")) None demo_res
    = GoRedirect address
        (@Res.cookie Whatwg.express "recent_targets" (JsArray.join kept)
           recent_targets_options demo_res)
    ∧ extract_target_param address = Some "not a url"
    ∧ ("not a url" ∉ [] -> ∃ r, kept = "not a url" :: r)
    ∧ ("not a url" ∈ [] -> kept = take 8 []).
Proof.
  exact (simple_go_route_unchecked Whatwg.api Whatwg.express "not a url" None demo_res
           ltac:(discriminate)).
Defined.

(** ** The simpler variant *)

(** X13.  The proxyRes hook of the simpler variant strips nothing: every
    upstream header but Location is left as it is, Set-Cookie included.
    A non-empty Set-Cookie is also written to the client response, whose
    other headers, status and body stay.  A non-empty Location that is an
    absolute URL is replaced by a URL on the proxy's own origin whose
    [target] parameter decodes to the serialised URL; any other Location
    is left as it is. *)
Theorem simple_proxyRes_hook (api : UrlApi) (h : gmap string header_value)
    (req : Req.t) (res : Res.t) :
  let h' := (Simple.on_proxyRes h req res).1 in
  let res' := (Simple.on_proxyRes h req res).2 in
  let selfOrigin := (if Js.truthy (Req.protocol req) then Req.protocol req else "https")
                    +:+ "://" +:+ Js.template (Req.headers req !! "host") in
  (∀ k, k ≠ "location" -> h' !! k = h !! k)
  ∧ (∀ v locUrl, h !! "location" = Some v -> truthy_value v = true ->
       URL_new (to_string v) None = Some locUrl ->
       ∃ enc, h' !! "location" = Some (HStr (selfOrigin +:+ "/proxy?target=" +:+ enc))
              ∧ Js.decodeURIComponent enc = Some (href locUrl))
  ∧ (∀ v, h !! "location" = Some v ->
       truthy_value v = false ∨ URL_new (to_string v) None = None ->
       h' !! "location" = Some v)
  ∧ (∀ c, h !! "set-cookie" = Some c -> truthy_value c = true ->
       Res.headers res' !! "set-cookie" = Some c)
  ∧ (∀ k, k ≠ "set-cookie" -> Res.headers res' !! k = Res.headers res !! k)
  ∧ Res.statusCode res' = Res.statusCode res
  ∧ Res.body res' = Res.body res.
Proof.
  cbv zeta. unfold Simple.on_proxyRes. cbn [fst snd].
  split; [| split; [| split; [| split; [| split] ] ] ].
  - intros k Hk. destruct (h !! "location") as [v|]; [| done].
    destruct (truthy_value v); [| done].
    destruct (URL_new _ _); [| done]. by rewrite lookup_insert_ne.
  - intros v locUrl -> -> ->. eexists. rewrite lookup_insert_eq.
    split; [by rewrite !append_assoc | apply decode_encode].
  - intros v Hv Hor. rewrite Hv.
    destruct (truthy_value v); [| done]. destruct Hor as [? | ->]; done.
  - intros c -> ->. cbn. by rewrite lookup_insert_eq.
  - intros k Hk. destruct (h !! "set-cookie") as [c|]; [| done].
    destruct (truthy_value c); [| done]. cbn. by rewrite lookup_insert_ne.
  - destruct (h !! "set-cookie") as [c|]; [| done]. by destruct (truthy_value c).
Qed.

